(** * EvoArc: the macOS conditional-compilation filters

    A shallow embedding of [remove_macos_conditionals.py] (the first filter)
    and [remove_macos_conditionals_v2.py] (the refined filter with its guard
    stack and the import post-pass), and the properties of the filters that
    their description states. *)

From Stdlib Require Import ZArith NArith String Ascii Lia.
From stdpp Require Import base list.

Local Open Scope Z_scope.

(** ** Text

    A Python [str] is a sequence of Unicode code points; a character is the
    number of its code point. *)

Definition char := N.
Definition text := list char.

(** A string literal of the source, as code points. *)
Definition str (s : string) : text :=
  map N_of_ascii (list_ascii_of_string s).

Definition NL : char := 10%N.

(** [\s] of a [str] pattern: the characters Python's [re] takes for white
    space (ASCII 9-13, 28-31 and 32, and the Unicode spaces). *)
Definition is_space (c : char) : bool :=
  ((9 <=? c) && (c <=? 13) || (28 <=? c) && (c <=? 32)
   || (c =? 133) || (c =? 160) || (c =? 5760)
   || (8192 <=? c) && (c <=? 8202)
   || (c =? 8232) || (c =? 8233) || (c =? 8239) || (c =? 8287)
   || (c =? 12288))%N.

(** [content.split('\n')]: one more piece than there are line feeds. *)
Fixpoint split_lines (s : text) : list text :=
  match s with
  | [] => [[]]
  | c :: t =>
      if (c =? NL)%N then [] :: split_lines t
      else match split_lines t with
           | l :: ls => (c :: l) :: ls
           | [] => [[c]]
           end
  end.

(** ['\n'.join(result)]. *)
Fixpoint join_lines (ls : list text) : text :=
  match ls with
  | [] => []
  | [l] => l
  | l :: ls' => l ++ NL :: join_lines ls'
  end.

(** ** The patterns

    The source's regular expressions are built from four pieces only:
    literal text, [\s*], [\s+] and [$].  A pattern is the list of its
    pieces; [^] is implied by [re.match], which matches at the start. *)

Inductive atom : Type :=
| Lit (l : text)   (* literal characters *)
| Ws0              (* \s*  *)
| Ws1              (* \s+  *)
| Eos.             (* $    *)

Definition regex := list atom.

Fixpoint strip_prefix (l s : text) : option text :=
  match l, s with
  | [], _ => Some s
  | a :: l', c :: s' => if (a =? c)%N then strip_prefix l' s' else None
  | _ :: _, [] => None
  end.

(** Greedy repetition of [\s] with backtracking: take one more white-space
    character when the rest of the pattern [k] can still match after it,
    otherwise stop here. *)
Fixpoint ws_star (k : text -> option text) (s : text) : option text :=
  match s with
  | c :: t =>
      if is_space c then
        match ws_star k t with
        | Some r => Some r
        | None => k s
        end
      else k s
  | [] => k []
  end.

(** [$] without [re.MULTILINE]: the end of the string, or just before a
    line feed that ends the string. *)
Definition at_end (s : text) : bool :=
  match s with
  | [] => true
  | [c] => (c =? NL)%N
  | _ => false
  end.

(** [rmatch p s] is the text left after the match of [p] at the start of
    [s] that Python's backtracking matcher finds, [None] when there is
    none. *)
Fixpoint rmatch (p : regex) (s : text) {struct p} : option text :=
  match p with
  | [] => Some s
  | Lit l :: p' =>
      match strip_prefix l s with
      | Some r => rmatch p' r
      | None => None
      end
  | Ws0 :: p' => ws_star (rmatch p') s
  | Ws1 :: p' =>
      match s with
      | c :: t => if is_space c then ws_star (rmatch p') t else None
      | [] => None
      end
  | Eos :: p' => if at_end s then rmatch p' s else None
  end.

(** [re.match(p, line)] used as a condition. *)
Definition re_match (p : regex) (line : text) : bool :=
  match rmatch p line with Some _ => true | None => false end.

(** [re.sub(p, '', s)]: scanning from the left, each match is deleted and
    the scan goes on after it; [skip] counts the characters of the current
    match still to be dropped.  An empty match deletes nothing. *)
Fixpoint re_sub_del (p : regex) (skip : nat) (s : text) : text :=
  match s with
  | [] => []
  | c :: t =>
      match skip with
      | S k => re_sub_del p k t
      | O =>
          match rmatch p s with
          | Some r =>
              match (length s - length r)%nat with
              | S k => re_sub_del p k t
              | O => c :: re_sub_del p 0 t
              end
          | None => c :: re_sub_del p 0 t
          end
      end
  end.

(** r'^\s*#if\s+os\(macOS\)' *)
Definition re_if_macos : regex := [Ws0; Lit (str "#if"); Ws1; Lit (str "os(macOS)")].
(** r'^\s*#if\s+os\(iOS\)' *)
Definition re_if_ios : regex := [Ws0; Lit (str "#if"); Ws1; Lit (str "os(iOS)")].
(** r'^\s*#if\s+!os\(macOS\)' *)
Definition re_if_not_macos : regex := [Ws0; Lit (str "#if"); Ws1; Lit (str "!os(macOS)")].
(** r'^\s*#if' *)
Definition re_if : regex := [Ws0; Lit (str "#if")].
(** r'^\s*#elseif\s+os\(macOS\)' *)
Definition re_elseif_macos : regex := [Ws0; Lit (str "#elseif"); Ws1; Lit (str "os(macOS)")].
(** r'^\s*#else\s*$' *)
Definition re_else : regex := [Ws0; Lit (str "#else"); Ws0; Eos].
(** r'^\s*#endif' *)
Definition re_endif : regex := [Ws0; Lit (str "#endif")].
(** r'^\s*#endif\s*$' *)
Definition re_endif_eol : regex := [Ws0; Lit (str "#endif"); Ws0; Eos].
(** r'import\s+AppKit\s*\n' *)
Definition re_import_appkit : regex :=
  [Lit (str "import"); Ws1; Lit (str "AppKit"); Ws0; Lit [NL]].

(** ** The refined filter, [remove_macos_conditionals_v2.py] *)

Module V2.

(** The loop's variables: the skip counter and the stack of open blocks. *)
Record state : Type := mkState {
  skip_until_endif : Z;
  stack : list string
}.

Definition init : state := mkState 0 [].

(** [stack and stack[-1] == 'ios'] *)
Definition top_is_ios (stk : list string) : bool :=
  match last stk with
  | Some t => String.eqb t "ios"
  | None => false
  end.

(** [stack.pop()] *)
Definition pop (stk : list string) : list string := removelast stk.

(** One turn of the [while] loop: the new state, and the line when it is
    appended to [result]. *)
Definition step (st : state) (line : text) : state * option text :=
  let skip := skip_until_endif st in
  let stk := stack st in
  if re_match re_if_macos line then
    (mkState (skip + 1) stk, None)
  else if 0 <? skip then
    if re_match re_if line then (mkState (skip + 1) stk, None)
    else if re_match re_endif line then (mkState (skip - 1) stk, None)
    else (st, None)
  else if re_match re_if_ios line then
    (mkState skip (stk ++ ["ios"%string]), None)
  else if re_match re_elseif_macos line then
    if top_is_ios stk then (mkState 1 stk, None) else (st, None)
  else if re_match re_else line then
    if top_is_ios stk then (mkState 1 stk, None) else (st, None)
  else if re_match re_endif line then
    if top_is_ios stk then (mkState skip (pop stk), None) else (st, None)
  else
    (st, Some line).

(** The [while] loop over [lines], from state [st] with [result] so far. *)
Fixpoint loop (st : state) (result : list text) (lines : list text)
  : state * list text :=
  match lines with
  | [] => (st, result)
  | line :: rest =>
      match step st line with
      | (st', Some l) => loop st' (result ++ [l]) rest
      | (st', None) => loop st' result rest
      end
  end.

(** The state and [result] when the loop ends. *)
Definition run (lines : list text) : state * list text := loop init [] lines.

Definition final_state (content : text) : state := fst (run (split_lines content)).

Definition filter_lines (lines : list text) : list text := snd (run lines).

Definition remove_macos_blocks (content : text) : text :=
  join_lines (filter_lines (split_lines content)).

(** [re.sub(r'import\s+AppKit\s*\n', '', new_content)] *)
Definition remove_imports (content : text) : text :=
  re_sub_del re_import_appkit 0 content.

(** ['os(macOS)' in content] *)
Fixpoint contains (needle s : text) : bool :=
  match strip_prefix needle s with
  | Some _ => true
  | None => match s with
            | [] => false
            | _ :: t => contains needle t
            end
  end.

(** [new_content] of [process_file]: the line filter, then the removal of
    the imports. *)
Definition new_content (content : text) : text :=
  remove_imports (remove_macos_blocks content).

(** [process_file] on the content of a file, on the path on which reading
    and writing the file raise no exception: the content written back, or
    [None] when the file is left as it is.  (On an exception the script
    reports the error and returns [False]; that path is not modelled.) *)
Definition process_file (content : text) : option text :=
  if negb (contains (str "os(macOS)") content) then None
  else
    let nc := new_content content in
    if decide (nc = content) then None else Some nc.

(** The content of the file after [process_file]. *)
Definition file_after (content : text) : text :=
  match process_file content with
  | Some nc => nc
  | None => content
  end.

End V2.

(** ** The first filter, [remove_macos_conditionals.py] *)

Module V1.

Record state : Type := mkState {
  skip_depth : Z;
  in_ios_block : bool;
  ios_depth : Z
}.

Definition init : state := mkState 0 false 0.

(** One turn of the [while] loop.  A [#else] or [#endif] line that neither
    of its two conditions takes falls through to the checks after it. *)
Definition step (st : state) (line : text) : state * option text :=
  let skip := skip_depth st in
  let ios := in_ios_block st in
  let depth := ios_depth st in
  let keep := if skip =? 0 then (st, Some line) else (st, None) in
  let on_endif :=
    if re_match re_endif_eol line then
      if 0 <? skip then (mkState (skip - 1) ios depth, None)
      else if ios && (0 <? depth) then
        (mkState skip (if depth - 1 =? 0 then false else ios) (depth - 1), None)
      else keep
    else keep in
  if re_match re_if_macos line then
    (mkState (skip + 1) ios depth, None)
  else if re_match re_if_ios line then
    (mkState skip true (depth + 1), None)
  else if re_match re_if_not_macos line then
    (st, None)
  else if re_match re_else line then
    if 0 <? skip then (st, None)
    else if ios then (mkState (skip + 1) ios depth, None)
    else on_endif
  else on_endif.

Fixpoint loop (st : state) (result : list text) (lines : list text)
  : state * list text :=
  match lines with
  | [] => (st, result)
  | line :: rest =>
      match step st line with
      | (st', Some l) => loop st' (result ++ [l]) rest
      | (st', None) => loop st' result rest
      end
  end.

Definition filter_lines (lines : list text) : list text :=
  snd (loop init [] lines).

Definition remove_macos_conditionals (content : text) : text :=
  join_lines (filter_lines (split_lines content)).

(** [process_file] of the first filter on the content of a file, on the
    path on which reading and writing the file raise no exception: the
    content written back, or [None] when the file is left as it is.  The
    file is looked at only when it holds both ['#if'] and ['macOS'].  (On
    an exception the script reports the error and returns [False]; that
    path is not modelled.) *)
Definition process_file (content : text) : option text :=
  if negb (V2.contains (str "#if") content)
     || negb (V2.contains (str "macOS") content) then None
  else
    let nc := remove_macos_conditionals content in
    if decide (nc = content) then None else Some nc.

End V1.

(** A text of several lines, from its lines. *)
Definition lines_of (ls : list string) : text := join_lines (map str ls).

(** ** Notions used to state the properties *)

(** A line that holds no line feed, as every piece of [split('\n')]. *)
Definition no_nl (l : text) : Prop := NL ∉ l.

(** A text without the white space at its start. *)
Fixpoint drop_space (s : text) : text :=
  match s with
  | c :: t => if is_space c then drop_space t else s
  | [] => []
  end.

(** A line that one of the five directive patterns of the refined filter's
    loop matches. *)
Definition recognised (line : text) : bool :=
  re_match re_if_macos line || re_match re_if_ios line
  || re_match re_elseif_macos line || re_match re_else line
  || re_match re_endif line.

(** A directive line in the description's sense: after white space, the
    line starts with [#if], [#elseif], [#else] or [#endif]. *)
Definition directive_line (line : text) : bool :=
  re_match re_if line
  || re_match [Ws0; Lit (str "#elseif")] line
  || re_match [Ws0; Lit (str "#else")] line
  || re_match re_endif line.

(** The nesting depth after [lines], from depth [d], counting what the
    skipping branch of the loop counts: [#if...] opens, [#endif...] closes.
    [None] when an [#endif] closes more than was opened. *)
Fixpoint depth_after (d : nat) (lines : list text) : option nat :=
  match lines with
  | [] => Some d
  | l :: rest =>
      if re_match re_if l then depth_after (S d) rest
      else if re_match re_endif l then
        match d with
        | O => None
        | S d' => depth_after d' rest
        end
      else depth_after d rest
  end.

(** Lines in which every [#if] has its [#endif] and the other way round. *)
Definition well_nested (lines : list text) : Prop := depth_after 0 lines = Some 0%nat.

(** The white space at the start of [s] holds a line feed. *)
Fixpoint line_feed_ahead (s : text) : bool :=
  match s with
  | c :: t => if (c =? NL)%N then true else if is_space c then line_feed_ahead t else false
  | [] => false
  end.

Definition all_space (w : text) : Prop := Forall (fun c => is_space c = true) w.

(** [s] starts with an occurrence of the import pattern, and [r] is what
    follows it: [import], white space, [AppKit], and white space up to and
    with the last line feed of that run of white space. *)
Definition import_occurrence (s r : text) : Prop :=
  exists w1 w2 : text,
    s = str "import" ++ w1 ++ str "AppKit" ++ w2 ++ NL :: r
    /\ w1 <> [] /\ all_space w1 /\ all_space w2
    /\ line_feed_ahead r = false.

(** The import post-pass as the description words it: every whole line that
    the import pattern matches is deleted, and nothing else. *)
Definition import_line (l : text) : bool :=
  re_match [Lit (str "import"); Ws1; Lit (str "AppKit"); Ws0; Eos] l.

Definition delete_import_lines (content : text) : text :=
  join_lines (List.filter (fun l => negb (import_line l)) (split_lines content)).

(** A line that opens a block of one of the three kinds the first filter
    knows. *)
Definition opens_known_block (l : text) : bool :=
  re_match re_if_macos l || re_match re_if_ios l || re_match re_if_not_macos l.

(** The state the first loop keeps: no counter below 0, and the flag
    [in_ios_block] set exactly while [ios_depth] is above 0. *)
Definition state1_ok (st : V1.state) : Prop :=
  0 <= V1.skip_depth st /\ 0 <= V1.ios_depth st
  /\ V1.in_ios_block st = (0 <? V1.ios_depth st).

(** * The embedding on the described scenarios *)

Example v2_scenario1 :
  V2.remove_macos_blocks (lines_of ["#if os(macOS)"; "A"; "#endif"; "B"]%string)
  = str "B".
Proof. vm_compute. reflexivity. Qed.

Example v2_scenario2 :
  V2.remove_macos_blocks (lines_of ["#if os(iOS)"; "A"; "#endif"; "B"]%string)
  = lines_of ["A"; "B"]%string.
Proof. vm_compute. reflexivity. Qed.

Example v2_scenario3 :
  V2.remove_macos_blocks
    (lines_of ["#if os(iOS)"; "A"; "#else"; "C"; "#endif"; "B"]%string)
  = lines_of ["A"; "B"]%string.
Proof. vm_compute. reflexivity. Qed.

(** ** Lines and their joining *)

Section Lines.

Implicit Types (s l : text) (ls : list text).

Lemma split_lines_not_nil s : split_lines s <> [].
Proof.
  destruct s as [|c t]; simpl; [discriminate|].
  destruct (c =? NL)%N; [discriminate|].
  destruct (split_lines t); discriminate.
Qed.

Lemma split_lines_no_nl s : Forall no_nl (split_lines s).
Proof.
  induction s as [|c t IH]; simpl.
  - repeat constructor. unfold no_nl. apply not_elem_of_nil.
  - destruct (N.eqb_spec c NL) as [->|Hc].
    + constructor; [apply not_elem_of_nil | exact IH].
    + destruct (split_lines t) as [|l ls].
      * repeat constructor. unfold no_nl.
        rewrite not_elem_of_cons. split; [congruence | apply not_elem_of_nil].
      * inversion IH as [|? ? Hl Hls]; subst. constructor; [|exact Hls].
        unfold no_nl in *. rewrite not_elem_of_cons. split; [congruence | exact Hl].
Qed.

Lemma split_lines_app_nl l s :
  no_nl l -> split_lines (l ++ NL :: s) = l :: split_lines s.
Proof.
  unfold no_nl. induction l as [|c l IH]; intros Hl; simpl.
  - reflexivity.
  - apply not_elem_of_cons in Hl as [Hc Hl].
    destruct (N.eqb_spec c NL) as [->|_]; [congruence|].
    rewrite (IH Hl). reflexivity.
Qed.

Lemma split_lines_line l : no_nl l -> split_lines l = [l].
Proof.
  unfold no_nl. induction l as [|c l IH]; intros Hl; simpl.
  - reflexivity.
  - apply not_elem_of_cons in Hl as [Hc Hl].
    destruct (N.eqb_spec c NL) as [->|_]; [congruence|].
    rewrite (IH Hl). reflexivity.
Qed.

(** Splitting what was joined gives the lines back, when there is at
    least one line and no line holds a line feed. *)
Lemma split_join ls :
  ls <> [] -> Forall no_nl ls -> split_lines (join_lines ls) = ls.
Proof.
  induction ls as [|l ls IH]; intros Hne Hall; [congruence|].
  inversion Hall as [|? ? Hl Hls]; subst.
  destruct ls as [|l' ls'].
  - simpl. apply split_lines_line, Hl.
  - change (join_lines (l :: l' :: ls')) with (l ++ NL :: join_lines (l' :: ls')).
    rewrite split_lines_app_nl by exact Hl.
    rewrite IH; [reflexivity | discriminate | exact Hls].
Qed.

Lemma join_split s : join_lines (split_lines s) = s.
Proof.
  induction s as [|c t IH]; simpl; [reflexivity|].
  destruct (N.eqb_spec c NL) as [->|Hc].
  - pose proof (split_lines_not_nil t) as Hne.
    destruct (split_lines t) as [|l ls]; [congruence|].
    change (join_lines ([] :: l :: ls)) with ([] ++ NL :: join_lines (l :: ls)).
    rewrite IH. reflexivity.
  - destruct (split_lines t) as [|l ls]; simpl in *.
    + subst. reflexivity.
    + destruct ls; simpl in *; subst; reflexivity.
Qed.

End Lines.

(** ** The matcher *)

Section Matcher.

Implicit Types (s l r : text) (p : regex).

(** The equations of the matcher, piece by piece. *)
Lemma rmatch_Lit l p s :
  rmatch (Lit l :: p) s =
    match strip_prefix l s with
    | Some r => rmatch p r
    | None => None
    end.
Proof. reflexivity. Qed.

Lemma rmatch_Ws0 p s : rmatch (Ws0 :: p) s = ws_star (rmatch p) s.
Proof. reflexivity. Qed.

Lemma rmatch_Ws1 p s :
  rmatch (Ws1 :: p) s =
    match s with
    | c :: t => if is_space c then ws_star (rmatch p) t else None
    | [] => None
    end.
Proof. reflexivity. Qed.

Lemma strip_prefix_Some l s r : strip_prefix l s = Some r <-> s = l ++ r.
Proof.
  revert s. induction l as [|a l IH]; intros s; simpl.
  - split; congruence.
  - destruct s as [|c s]; [split; discriminate|].
    destruct (N.eqb_spec a c) as [->|Hac].
    + rewrite IH. split; congruence.
    + split; [discriminate | congruence].
Qed.

Lemma strip_prefix_app l r : strip_prefix l (l ++ r) = Some r.
Proof. apply strip_prefix_Some. reflexivity. Qed.

(** Before a literal that starts with a character that is no white space,
    [\s*] takes all the white space there is: giving some back never
    helps. *)
Lemma ws_star_literal a l p s :
  is_space a = false ->
  ws_star (rmatch (Lit (a :: l) :: p)) s = rmatch (Lit (a :: l) :: p) (drop_space s).
Proof.
  intros Ha. induction s as [|c t IH]; [reflexivity|].
  cbn [ws_star drop_space]. destruct (is_space c) eqn:Hc; [|reflexivity].
  rewrite IH. destruct (rmatch (Lit (a :: l) :: p) (drop_space t)) eqn:Hm; [reflexivity|].
  cbn [rmatch strip_prefix].
  destruct (N.eqb_spec a c) as [->|_]; [congruence | reflexivity].
Qed.

(** What is left after a match is an end of the text. *)
Lemma ws_star_suffix (k : text -> option text) s r :
  (forall s' r', k s' = Some r' -> exists m, s' = m ++ r') ->
  ws_star k s = Some r -> exists m, s = m ++ r.
Proof.
  intros Hk. induction s as [|c t IH]; cbn [ws_star]; [apply Hk|].
  destruct (is_space c); [|apply Hk].
  destruct (ws_star k t) as [r0|] eqn:Ht; [|apply Hk].
  intros [= ->]. destruct (IH eq_refl) as [m ->]. exists (c :: m). reflexivity.
Qed.

Lemma rmatch_suffix p s r : rmatch p s = Some r -> exists m, s = m ++ r.
Proof.
  revert s r. induction p as [|a p IH]; intros s r; cbn [rmatch].
  - intros [= ->]. exists []. reflexivity.
  - destruct a as [l| | |].
    + destruct (strip_prefix l s) as [s1|] eqn:Hl; [|discriminate].
      apply strip_prefix_Some in Hl as ->. intros H.
      destruct (IH _ _ H) as [m ->]. exists (l ++ m). rewrite <- app_assoc. reflexivity.
    + apply ws_star_suffix, IH.
    + destruct s as [|c t]; [discriminate|]. destruct (is_space c); [|discriminate].
      intros H. destruct (ws_star_suffix _ _ _ (IH) H) as [m ->].
      exists (c :: m). reflexivity.
    + destruct (at_end s); [apply IH | discriminate].
Qed.

End Matcher.

(** ** The loop of the refined filter *)

Section RefinedLoop.

Import V2.
Implicit Types (st : state) (line l : text) (lines res : list text).

(** The lines appended to [result] by the loop over [lines] from [st]. *)
Local Abbreviation emitted st lines := (snd (loop st [] lines)).
(** The state the loop over [lines] from [st] ends in. *)
Local Abbreviation state_after st lines := (fst (loop st [] lines)).

Lemma loop_result st res lines :
  loop st res lines = (state_after st lines, res ++ emitted st lines).
Proof.
  revert st res. induction lines as [|l rest IH]; intros st res; cbn [loop].
  - simpl. rewrite app_nil_r. reflexivity.
  - destruct (step st l) as [st' [l'|]].
    + rewrite (IH st' (res ++ [l'])), (IH st' ([] ++ [l'])).
      simpl. rewrite <- app_assoc. reflexivity.
    + apply IH.
Qed.

Lemma loop_cons st l lines :
  loop st [] (l :: lines) =
    (state_after (fst (step st l)) lines,
     match snd (step st l) with
     | Some l' => l' :: emitted (fst (step st l)) lines
     | None => emitted (fst (step st l)) lines
     end).
Proof.
  cbn [loop]. destruct (step st l) as [st' [l'|]]; simpl.
  - rewrite loop_result. reflexivity.
  - rewrite loop_result. reflexivity.
Qed.

Lemma loop_app st lines1 lines2 :
  loop st [] (lines1 ++ lines2) =
    (state_after (state_after st lines1) lines2,
     emitted st lines1 ++ emitted (state_after st lines1) lines2).
Proof.
  revert st. induction lines1 as [|l rest IH]; intros st.
  - simpl. destruct (loop st [] lines2); reflexivity.
  - rewrite <- app_comm_cons, !loop_cons, IH. simpl.
    destruct (snd (step st l)); reflexivity.
Qed.

(** A line is appended only when no pattern of the loop matches it, and
    the state stays as it is. *)
Lemma step_emits st l st' l' :
  step st l = (st', Some l') -> st' = st /\ l' = l /\ recognised l = false.
Proof.
  unfold step, recognised.
  repeat match goal with
         | |- context [if ?b then _ else _] => destruct b eqn:?
         end; intros [= <- <-]; auto.
Qed.

(** While the counter is not positive, a line that no pattern matches is
    appended. *)
Lemma step_plain st l :
  skip_until_endif st <= 0 -> recognised l = false -> step st l = (st, Some l).
Proof.
  unfold recognised. intros Hs Hr.
  repeat (apply orb_false_elim in Hr as [Hr ?]).
  unfold step. rewrite Hr.
  destruct (Z.ltb_spec 0 (skip_until_endif st)); [lia|].
  repeat match goal with H : re_match _ l = false |- _ => rewrite H; clear H end.
  reflexivity.
Qed.

Lemma emitted_plain st lines :
  Forall (fun l => recognised l = false) (emitted st lines).
Proof.
  revert st. induction lines as [|l rest IH]; intros st.
  - constructor.
  - rewrite loop_cons. cbn [snd].
    destruct (step st l) as [st' [l'|]] eqn:Hstep; cbn [fst snd]; [|apply IH].
    apply step_emits in Hstep as (_ & -> & Hr). constructor; [exact Hr | apply IH].
Qed.

Lemma emitted_sublist st lines : emitted st lines `sublist_of` lines.
Proof.
  revert st. induction lines as [|l rest IH]; intros st.
  - constructor.
  - rewrite loop_cons. cbn [snd].
    destruct (step st l) as [st' [l'|]] eqn:Hstep; cbn [fst snd].
    + apply step_emits in Hstep as (_ & -> & _). apply sublist_skip, IH.
    + apply sublist_cons, IH.
Qed.

(** Lines that no pattern matches go through the loop unchanged. *)
Lemma loop_plain st lines :
  skip_until_endif st <= 0 ->
  Forall (fun l => recognised l = false) lines ->
  loop st [] lines = (st, lines).
Proof.
  intros Hs. induction 1 as [|l rest Hl _ IH]; [reflexivity|].
  rewrite loop_cons, (step_plain st l Hs Hl). cbn [fst snd].
  rewrite IH. reflexivity.
Qed.

Lemma filter_lines_sublist lines : filter_lines lines `sublist_of` lines.
Proof. apply emitted_sublist. Qed.

Lemma filter_lines_plain lines :
  Forall (fun l => recognised l = false) (filter_lines lines).
Proof. apply emitted_plain. Qed.

Lemma filter_lines_no_nl content : Forall no_nl (filter_lines (split_lines content)).
Proof.
  pose proof (split_lines_no_nl content) as Hall.
  rewrite Forall_forall in *. intros l Hl. apply Hall.
  eapply sublist_subseteq; [apply filter_lines_sublist | exact Hl].
Qed.

(** The lines of the filtered content are the lines kept, or one empty
    line when no line is kept. *)
Lemma split_filtered content :
  split_lines (remove_macos_blocks content) =
    match filter_lines (split_lines content) with
    | [] => [[]]
    | kept => kept
    end.
Proof.
  unfold remove_macos_blocks.
  pose proof (filter_lines_no_nl content) as Hnl.
  destruct (filter_lines (split_lines content)) as [|l ls] eqn:Hf; [reflexivity|].
  apply split_join; [discriminate | exact Hnl].
Qed.

Lemma filter_lines_fixed lines :
  Forall (fun l => recognised l = false) lines -> filter_lines lines = lines.
Proof.
  intros H. unfold filter_lines, run. rewrite loop_plain; [reflexivity | simpl; lia | exact H].
Qed.

Lemma remove_macos_blocks_idem content :
  remove_macos_blocks (remove_macos_blocks content) = remove_macos_blocks content.
Proof.
  unfold remove_macos_blocks at 1. rewrite split_filtered.
  pose proof (filter_lines_plain (split_lines content)) as Hp.
  unfold remove_macos_blocks.
  destruct (filter_lines (split_lines content)) as [|l ls] eqn:Hf.
  - reflexivity.
  - rewrite filter_lines_fixed by exact Hp. reflexivity.
Qed.

End RefinedLoop.

(** ** The directive patterns *)

Section Directives.

Implicit Types (s l r : text) (p : regex).

(** A pattern [^\s*#...] matches when the line, after the white space at its
    start, matches from the [#] on. *)
Lemma re_match_hash lit p s :
  re_match (Ws0 :: Lit (35%N :: lit) :: p) s
  = re_match (Lit (35%N :: lit) :: p) (drop_space s).
Proof.
  unfold re_match.
  change (rmatch (Ws0 :: Lit (35%N :: lit) :: p) s)
    with (ws_star (rmatch (Lit (35%N :: lit) :: p)) s).
  rewrite ws_star_literal by reflexivity. reflexivity.
Qed.

Lemma hash_prefix lit p s :
  re_match (Ws0 :: Lit (35%N :: lit) :: p) s = true ->
  exists r, drop_space s = 35%N :: lit ++ r.
Proof.
  rewrite re_match_hash. unfold re_match. cbn [rmatch].
  destruct (strip_prefix (35%N :: lit) (drop_space s)) as [r|] eqn:Hp; [|discriminate].
  apply strip_prefix_Some in Hp. intros _. exists r. exact Hp.
Qed.

Lemma re_if_prefix s :
  re_match re_if s = true <-> exists r, drop_space s = str "#if" ++ r.
Proof.
  split.
  - apply hash_prefix.
  - intros [r Hr]. unfold re_if. change (str "#if") with [35; 105; 102]%N in *.
    rewrite re_match_hash, Hr. reflexivity.
Qed.

(** The pattern of the target platform's [#if] is a special case of the
    pattern [#if] that the skipping branch counts. *)
Lemma re_if_macos_if s : re_match re_if_macos s = true -> re_match re_if s = true.
Proof. intros H. apply re_if_prefix. apply hash_prefix in H as [r Hr]. exists r. exact Hr. Qed.

Lemma re_if_ios_if s : re_match re_if_ios s = true -> re_match re_if s = true.
Proof. intros H. apply re_if_prefix. apply hash_prefix in H as [r Hr]. exists r. exact Hr. Qed.

(** Two patterns whose literals part after the [#] cannot match one
    line. *)
Ltac literals_clash H :=
  let r := fresh "r" in
  let r' := fresh "r" in
  let Hr := fresh "Hr" in
  let Hr' := fresh "Hr" in
  let Hif := fresh "Hif" in
  apply hash_prefix in H as [r Hr];
  match goal with
  | |- re_match re_if ?s = false =>
      destruct (re_match re_if s) eqn:Hif; [|reflexivity];
      apply re_if_prefix in Hif as [r' Hr'];
      rewrite Hr in Hr'; discriminate Hr'
  end.

Lemma re_endif_not_if s : re_match re_endif s = true -> re_match re_if s = false.
Proof. intros H. literals_clash H. Qed.

Lemma re_else_not_if s : re_match re_else s = true -> re_match re_if s = false.
Proof. intros H. literals_clash H. Qed.

Lemma re_elseif_macos_not_if s :
  re_match re_elseif_macos s = true -> re_match re_if s = false.
Proof. intros H. literals_clash H. Qed.

Lemma not_if_not_macos_ios s :
  re_match re_if s = false ->
  re_match re_if_macos s = false /\ re_match re_if_ios s = false.
Proof.
  intros H. split.
  - destruct (re_match re_if_macos s) eqn:E; [|reflexivity].
    apply re_if_macos_if in E. congruence.
  - destruct (re_match re_if_ios s) eqn:E; [|reflexivity].
    apply re_if_ios_if in E. congruence.
Qed.

End Directives.

(** ** Skipped regions *)

Section Skipping.

Import V2.
Implicit Types (st : state) (line l : text) (lines res body : list text).

(** While the counter is positive the loop only counts: [#if] up, [#endif]
    down, and nothing is appended. *)
Lemma step_skipping st l :
  0 < skip_until_endif st ->
  step st l =
    (if re_match re_if l then mkState (skip_until_endif st + 1) (stack st)
     else if re_match re_endif l then mkState (skip_until_endif st - 1) (stack st)
     else st, None).
Proof.
  intros Hs. unfold step.
  destruct (re_match re_if_macos l) eqn:Hm.
  - rewrite (re_if_macos_if _ Hm). reflexivity.
  - destruct (Z.ltb_spec 0 (skip_until_endif st)); [|lia].
    destruct (re_match re_if l), (re_match re_endif l); reflexivity.
Qed.

Lemma step_opening st l :
  re_match re_if_macos l = true ->
  step st l = (mkState (skip_until_endif st + 1) (stack st), None).
Proof. intros H. unfold step. rewrite H. reflexivity. Qed.

Lemma loop_skipping body : forall (d d' : nat) (k : Z) stk,
  1 <= k ->
  depth_after d body = Some d' ->
  loop (mkState (k + Z.of_nat d) stk) [] body = (mkState (k + Z.of_nat d') stk, []).
Proof.
  induction body as [|l rest IH]; intros d d' k stk Hk Hd; cbn [depth_after] in Hd.
  - injection Hd as <-. reflexivity.
  - rewrite loop_cons, step_skipping by (simpl; lia). cbn [skip_until_endif stack fst snd].
    destruct (re_match re_if l).
    + replace (k + Z.of_nat d + 1) with (k + Z.of_nat (S d)) by lia.
      rewrite (IH _ _ _ _ Hk Hd). reflexivity.
    + destruct (re_match re_endif l).
      * destruct d as [|d0]; [discriminate|].
        replace (k + Z.of_nat (S d0) - 1) with (k + Z.of_nat d0) by lia.
        rewrite (IH _ _ _ _ Hk Hd). reflexivity.
      * rewrite (IH _ _ _ _ Hk Hd). reflexivity.
Qed.

Lemma depth_after_prefix pre suf : forall d d',
  depth_after d (pre ++ suf) = Some d' -> exists dm, depth_after d pre = Some dm.
Proof.
  induction pre as [|l pre IH]; intros d d' H; cbn [depth_after app] in *.
  - eauto.
  - destruct (re_match re_if l); [eauto|].
    destruct (re_match re_endif l); [|eauto].
    destruct d; [discriminate | eauto].
Qed.

(** From a state that is not skipping, the opening line of a target
    platform block and any start of its well-nested body append nothing. *)
Lemma block_start_skipped stk opening pre suf :
  re_match re_if_macos opening = true ->
  well_nested (pre ++ suf) ->
  exists dm : nat,
    loop (mkState 0 stk) [] (opening :: pre) = (mkState (1 + Z.of_nat dm) stk, []).
Proof.
  intros Ho Hb. destruct (depth_after_prefix _ _ _ _ Hb) as [dm Hdm].
  exists dm. rewrite loop_cons, (step_opening _ _ Ho). cbn [fst snd skip_until_endif stack].
  change (0 + 1) with (1 + Z.of_nat 0).
  rewrite (loop_skipping pre 0 dm 1 stk); [reflexivity | lia | exact Hdm].
Qed.

(** The whole block, through its closing line, appends nothing and leaves
    the state as it was. *)
Lemma block_skipped stk opening body closing :
  re_match re_if_macos opening = true ->
  well_nested body ->
  re_match re_endif closing = true ->
  loop (mkState 0 stk) [] (opening :: body ++ [closing]) = (mkState 0 stk, []).
Proof.
  intros Ho Hb Hc.
  rewrite app_comm_cons, loop_app.
  destruct (block_start_skipped stk opening body [] Ho) as [dm Hdm];
    [rewrite app_nil_r; exact Hb|].
  assert (dm = 0%nat) as ->.
  { rewrite loop_cons, (step_opening _ _ Ho) in Hdm.
    cbn [fst snd skip_until_endif stack] in Hdm.
    change (0 + 1) with (1 + Z.of_nat 0) in Hdm.
    rewrite (loop_skipping body 0 0 1 stk) in Hdm; [|lia|exact Hb].
    injection Hdm as Hdm. lia. }
  rewrite Hdm. cbn [fst snd]. rewrite loop_cons, step_skipping by (simpl; lia).
  rewrite (re_endif_not_if _ Hc), Hc. reflexivity.
Qed.

Lemma depth_after_flat body (d : nat) :
  Forall (fun l => re_match re_if l = false /\ re_match re_endif l = false) body ->
  depth_after d body = Some d.
Proof.
  induction 1 as [|l rest [Hi He] _ IH]; [reflexivity|].
  cbn [depth_after]. rewrite Hi, He. exact IH.
Qed.

(** An [#if os(iOS)] block with an [#else] branch leaves its marker on the
    stack: its [#endif] ends the skipping and is not seen by the branch
    that pops. *)
Lemma ios_else_block_leaks stk (body1 body2 : list text) :
  Forall (fun l => recognised l = false) body1 ->
  Forall (fun l => re_match re_if l = false /\ re_match re_endif l = false) body2 ->
  fst (loop (mkState 0 stk) []
         (str "#if os(iOS)" :: body1 ++ str "#else" :: body2 ++ [str "#endif"]))
  = mkState 0 (stk ++ ["ios"%string]).
Proof.
  intros H1 H2.
  rewrite loop_cons.
  assert (Hopen : step (mkState 0 stk) (str "#if os(iOS)")
                  = (mkState 0 (stk ++ ["ios"%string]), None)) by reflexivity.
  rewrite Hopen. cbn [fst snd].
  rewrite loop_app, (loop_plain _ body1) by (simpl; first [lia | exact H1]).
  cbn [fst snd]. rewrite loop_cons.
  assert (Helse : step (mkState 0 (stk ++ ["ios"%string])) (str "#else")
                  = (mkState 1 (stk ++ ["ios"%string]), None)).
  { unfold step. cbn [skip_until_endif stack].
    change (re_match re_if_macos (str "#else")) with false.
    change (re_match re_if_ios (str "#else")) with false.
    change (re_match re_elseif_macos (str "#else")) with false.
    change (re_match re_else (str "#else")) with true.
    change (0 <? 0) with false. cbv iota.
    unfold top_is_ios. rewrite last_snoc. reflexivity. }
  rewrite Helse. cbn [fst snd]. rewrite loop_app.
  change 1 with (1 + Z.of_nat 0) at 1 2.
  rewrite (loop_skipping body2 0 0 1) by (first [lia | apply depth_after_flat, H2]).
  cbn [fst snd]. rewrite loop_cons, step_skipping by (simpl; lia).
  reflexivity.
Qed.

End Skipping.

(** ** The removal of the imports *)

Section Imports.

Implicit Types (s r m w : text) (p : regex).

Lemma re_sub_del_skip p m r :
  re_sub_del p (length m) (m ++ r) = re_sub_del p 0 r.
Proof. induction m as [|c m IH]; [reflexivity | exact IH]. Qed.

(** One step of the scan: a match that is not empty is dropped and the scan
    goes on behind it, otherwise the character is kept. *)
Lemma re_sub_del_scan p c t :
  re_sub_del p 0 (c :: t) =
    match rmatch p (c :: t) with
    | Some r =>
        if (length r <? length (c :: t))%nat then re_sub_del p 0 r
        else c :: re_sub_del p 0 t
    | None => c :: re_sub_del p 0 t
    end.
Proof.
  cbn [re_sub_del]. destruct (rmatch p (c :: t)) as [r|] eqn:Hm; [|reflexivity].
  destruct (rmatch_suffix _ _ _ Hm) as [m Hs].
  destruct m as [|c' m].
  - simpl in Hs. subst r. rewrite Nat.sub_diag, Nat.ltb_irrefl. reflexivity.
  - injection Hs as <- ->. cbn [length]. rewrite length_app.
    replace (S (length m + length r) - length r)%nat with (S (length m)) by lia.
    destruct (Nat.ltb_spec (length r) (S (length m + length r))); [|lia].
    apply re_sub_del_skip.
Qed.

Lemma drop_space_head c s : is_space c = false -> drop_space (c :: s) = c :: s.
Proof. intros H. cbn [drop_space]. rewrite H. reflexivity. Qed.

Lemma drop_space_app w s :
  all_space w -> drop_space (w ++ s) = drop_space s.
Proof.
  induction 1 as [|c w Hc _ IH]; [reflexivity|].
  cbn [app drop_space]. rewrite Hc. exact IH.
Qed.

Lemma drop_space_split s : exists w, s = w ++ drop_space s /\ all_space w.
Proof.
  induction s as [|c t (w & Hw & Hall)]; [exists []; split; [reflexivity | constructor]|].
  cbn [drop_space]. destruct (is_space c) eqn:Hc.
  - exists (c :: w). split; [cbn; congruence | constructor; assumption].
  - exists []. split; [reflexivity | constructor].
Qed.

Lemma rmatch_nl s :
  rmatch [Lit [NL]] s =
    match s with
    | c :: t => if (c =? NL)%N then Some t else None
    | [] => None
    end.
Proof.
  destruct s as [|c t]; [reflexivity|]. cbn [rmatch strip_prefix].
  rewrite (N.eqb_sym NL c). destruct (c =? NL)%N; reflexivity.
Qed.

(** [\s*\n] can match where, and only where, the white space ahead holds a
    line feed. *)
Lemma ws_star_nl_None s :
  ws_star (rmatch [Lit [NL]]) s = None <-> line_feed_ahead s = false.
Proof.
  pose proof rmatch_nl as Hk. set (k := rmatch [Lit [NL]]) in *. clearbody k.
  induction s as [|c t IH]; cbn [ws_star line_feed_ahead].
  - rewrite Hk. tauto.
  - rewrite Hk. destruct (N.eqb_spec c NL) as [->|Hc].
    + change (is_space NL) with true. cbv iota.
      destruct (ws_star k t); split; discriminate.
    + destruct (is_space c); [|tauto].
      destruct (ws_star k t) eqn:Ht.
      * rewrite <- IH. split; discriminate.
      * rewrite <- IH. tauto.
Qed.

(** [\s*\n] gives back white space until it ends on the last line feed of
    the run of white space. *)
Lemma ws_star_nl_Some s r :
  ws_star (rmatch [Lit [NL]]) s = Some r <->
  exists w, s = w ++ NL :: r /\ all_space w /\ line_feed_ahead r = false.
Proof.
  pose proof rmatch_nl as Hk. pose proof ws_star_nl_None as Hn.
  set (k := rmatch [Lit [NL]]) in *. clearbody k.
  split.
  - revert r. induction s as [|c t IH]; intros r; cbn [ws_star].
    + rewrite Hk. discriminate.
    + rewrite Hk.
      assert (Hhere : (if (c =? NL)%N then Some t else None) = Some r ->
                      ws_star k t = None ->
                      exists w, c :: t = w ++ NL :: r /\ all_space w
                                /\ line_feed_ahead r = false).
      { destruct (N.eqb_spec c NL) as [->|_]; [|discriminate].
        intros [= ->] Ht. exists []. repeat split; [constructor|].
        apply Hn, Ht. }
      destruct (is_space c) eqn:Hc.
      * destruct (ws_star k t) as [r0|] eqn:Ht.
        -- intros [= ->]. destruct (IH _ eq_refl) as (w & -> & Hw & Hr).
           exists (c :: w). repeat split; [constructor; assumption | exact Hr].
        -- intros H. apply Hhere; [exact H | reflexivity].
      * destruct (N.eqb_spec c NL) as [->|_]; [discriminate Hc | discriminate].
  - intros (w & -> & Hw & Hr). induction Hw as [|c w Hc _ IH].
    + cbn [app ws_star]. change (is_space NL) with true. cbv iota.
      apply Hn in Hr. rewrite Hr, Hk, N.eqb_refl. reflexivity.
    + cbn [app ws_star]. rewrite Hc, IH. reflexivity.
Qed.

(** The matcher finds the import pattern at the start of [s] exactly when
    [s] starts with an occurrence of it, and what is left is what follows
    the occurrence. *)
Lemma rmatch_import s r :
  rmatch re_import_appkit s = Some r <-> import_occurrence s r.
Proof.
  unfold re_import_appkit, import_occurrence.
  change (str "AppKit") with (65%N :: str "ppKit").
  rewrite rmatch_Lit. split.
  - destruct (strip_prefix (str "import") s) as [s1|] eqn:H1; [|discriminate].
    apply strip_prefix_Some in H1 as ->. rewrite rmatch_Ws1.
    destruct s1 as [|c t]; [discriminate|]. destruct (is_space c) eqn:Hc; [|discriminate].
    rewrite ws_star_literal by reflexivity. rewrite rmatch_Lit.
    destruct (strip_prefix _ (drop_space t)) as [s2|] eqn:H2; [|discriminate].
    apply strip_prefix_Some in H2. rewrite rmatch_Ws0.
    intros H3. apply ws_star_nl_Some in H3 as (w2 & -> & Hw2 & Hr).
    destruct (drop_space_split t) as (w & Ht & Hw). rewrite H2 in Ht.
    exists (c :: w), w2. repeat split.
    + rewrite Ht at 1. rewrite <- app_comm_cons. reflexivity.
    + discriminate.
    + constructor; assumption.
    + exact Hw2.
    + exact Hr.
  - intros (w1 & w2 & -> & Hne & Hw1 & Hw2 & Hr).
    rewrite strip_prefix_app, rmatch_Ws1.
    destruct Hw1 as [|c w Hc Hw]; [congruence|].
    rewrite <- app_comm_cons, Hc.
    rewrite ws_star_literal by reflexivity.
    rewrite drop_space_app by exact Hw.
    rewrite <- (app_comm_cons _ _ 65%N), drop_space_head by reflexivity.
    rewrite (app_comm_cons _ _ 65%N).
    rewrite rmatch_Lit, strip_prefix_app, rmatch_Ws0.
    apply ws_star_nl_Some. exists w2. auto.
Qed.

Lemma import_occurrence_shorter s r :
  import_occurrence s r -> (length r < length s)%nat.
Proof.
  intros (w1 & w2 & -> & _). rewrite !length_app. cbn [length]. lia.
Qed.

End Imports.

(** * The properties of the filters *)

(** ** An other-platform block *)

(** C1, as the code has it: for the six lines [#if os(watchOS)], [D],
    [#else], [E], [#endif], [B] the refined filter gives the four lines
    [#if os(watchOS)], [D], [E], [B]: both bodies are kept and the [#else]
    and [#endif] lines are removed, but the opening line, which no pattern
    of the loop matches, is kept. *)
Theorem other_platform_block_output :
  V2.remove_macos_blocks
    (lines_of ["#if os(watchOS)"; "D"; "#else"; "E"; "#endif"; "B"]%string)
  = lines_of ["#if os(watchOS)"; "D"; "E"; "B"]%string.
Proof. vm_compute. reflexivity. Qed.

(** The output for these six lines is not the three lines [D], [E], [B]. *)
Lemma other_platform_block_not_three_lines :
  V2.remove_macos_blocks
    (lines_of ["#if os(watchOS)"; "D"; "#else"; "E"; "#endif"; "B"]%string)
  <> lines_of ["D"; "E"; "B"]%string.
Proof. vm_compute. discriminate. Qed.

(** ** The state at the end of the input *)

(** C2, at its own example: after [#if os(iOS)], [A], [#else], [C],
    [#endif] the skip counter is 0 but the stack still holds ['ios']: the
    [#endif] is taken by the skipping branch, which does not pop. *)
Theorem ios_else_block_leaves_stack :
  V2.final_state (lines_of ["#if os(iOS)"; "A"; "#else"; "C"; "#endif"]%string)
  = V2.mkState 0 ["ios"%string].
Proof. vm_compute. reflexivity. Qed.

(** The marker left behind acts on a later block: its [#else] starts
    skipping, and the line [Y], which the filter keeps when the block
    stands alone, is lost. *)
Example leaked_marker_skips_later_else :
  V2.remove_macos_blocks
    (lines_of ["#if os(iOS)"; "A"; "#else"; "C"; "#endif";
               "#if DEBUG"; "X"; "#else"; "Y"; "#endif"; "Z"]%string)
  = lines_of ["A"; "#if DEBUG"; "X"; "Z"]%string
  /\ V2.remove_macos_blocks
       (lines_of ["#if DEBUG"; "X"; "#else"; "Y"; "#endif"; "Z"]%string)
     = lines_of ["#if DEBUG"; "X"; "Y"; "Z"]%string.
Proof. split; vm_compute; reflexivity. Qed.

(** ** No directive in the output *)

(** C3, as the code has it: no line of the refined filter's output is
    matched by one of the five patterns of its loop ([#if os(macOS)],
    [#if os(iOS)], [#elseif os(macOS)], a bare [#else], [#endif]). *)
Theorem no_recognised_directive_in_output (content line : text) :
  line ∈ split_lines (V2.remove_macos_blocks content) ->
  recognised line = false.
Proof.
  rewrite split_filtered. pose proof (filter_lines_plain (split_lines content)) as Hp.
  destruct (V2.filter_lines (split_lines content)) as [|l ls].
  - intros ->%list_elem_of_singleton. reflexivity.
  - intros Hin. rewrite Forall_forall in Hp. apply Hp, Hin.
Qed.

Lemma no_recognised_directive_in_output_witness :
  recognised (str "B") = false.
Proof.
  apply (no_recognised_directive_in_output
           (lines_of ["#if os(macOS)"; "A"; "#endif"; "B"]%string)).
  vm_compute. apply list_elem_of_here.
Defined.

(** A directive line of an other platform is in the output. *)
Lemma directive_line_in_output :
  str "#if os(watchOS)"
    ∈ split_lines (V2.remove_macos_blocks
                     (lines_of ["#if os(watchOS)"; "D"; "#endif"]%string))
  /\ directive_line (str "#if os(watchOS)") = true.
Proof. split; [vm_compute; apply list_elem_of_here | reflexivity]. Qed.

(** ** A block of every platform but the target *)

(** C4, at a block opened by [#if !os(macOS)]: the refined filter keeps the
    opening line, where the first filter drops it. *)
Theorem not_macos_opening_line_kept :
  V2.remove_macos_blocks (lines_of ["#if !os(macOS)"; "A"; "#endif"]%string)
  = lines_of ["#if !os(macOS)"; "A"]%string
  /\ V1.remove_macos_conditionals (lines_of ["#if !os(macOS)"; "A"; "#endif"]%string)
     = lines_of ["A"; "#endif"]%string.
Proof. split; vm_compute; reflexivity. Qed.

(** ** The removal of the import lines *)

(** C6, as the code has it: the post-pass, applied once to the filtered
    lines, scans the content from the left and deletes each occurrence of
    [import], white space, [AppKit] and the white space after it up to and
    with the last line feed of that run, wherever the occurrence starts,
    and keeps every character that is in no such occurrence. *)
Theorem remove_imports_occurrences :
  (forall content : text,
      V2.new_content content = V2.remove_imports (V2.remove_macos_blocks content))
  /\ V2.remove_imports [] = []
  /\ (forall s r : text,
         import_occurrence s r -> V2.remove_imports s = V2.remove_imports r)
  /\ (forall (c : char) (t : text),
         (forall r, ~ import_occurrence (c :: t) r) ->
         V2.remove_imports (c :: t) = c :: V2.remove_imports t).
Proof.
  split; [reflexivity|]. split; [reflexivity|]. unfold V2.remove_imports. split.
  - intros s r Hocc. pose proof (import_occurrence_shorter _ _ Hocc) as Hlen.
    apply rmatch_import in Hocc.
    destruct s as [|c t]; [simpl in Hlen; lia|].
    rewrite re_sub_del_scan, Hocc.
    destruct (Nat.ltb_spec (length r) (length (c :: t))); [reflexivity | lia].
  - intros c t Hno. rewrite re_sub_del_scan.
    destruct (rmatch re_import_appkit (c :: t)) as [r|] eqn:Hm; [|reflexivity].
    apply rmatch_import in Hm. destruct (Hno r Hm).
Qed.

Lemma remove_imports_occurrences_witness :
  V2.remove_imports (lines_of ["import AppKit"; "X"]%string) = V2.remove_imports (str "X").
Proof.
  apply (proj1 (proj2 (proj2 remove_imports_occurrences))).
  exists (str " "), [].
  split; [reflexivity|]. split; [discriminate|].
  split; [repeat constructor|]. split; [constructor | reflexivity].
Defined.

(** A last line [import AppKit] with no line feed after it is kept, and
    an import at the end of a longer line is cut out of its line: the
    post-pass is not the deletion of the whole import lines. *)
Lemma remove_imports_not_whole_lines :
  V2.remove_imports (lines_of ["a"; "import AppKit"]%string)
  <> delete_import_lines (lines_of ["a"; "import AppKit"]%string)
  /\ V2.remove_imports (lines_of ["@testable import AppKit"; "b"]%string)
     <> delete_import_lines (lines_of ["@testable import AppKit"; "b"]%string).
Proof. split; vm_compute; discriminate. Qed.

(** ** A block of the target platform *)

(** C7: the four lines [#if os(macOS)], [A], [#endif], [B] give [B]; and a
    block of the target platform with a well-nested body, met while the
    filter is not skipping, appends nothing, at no point of its body, and
    leaves the loop as it was before the block. *)
Theorem target_block_removed :
  V2.remove_macos_blocks (lines_of ["#if os(macOS)"; "A"; "#endif"; "B"]%string) = str "B"
  /\ forall (before : list text) (opening : text) (body : list text)
            (closing : text) (rest : list text),
      V2.skip_until_endif (fst (V2.run before)) = 0 ->
      re_match re_if_macos opening = true ->
      well_nested body ->
      re_match re_endif closing = true ->
      (forall pre suf : list text,
          body = pre ++ suf ->
          0 < V2.skip_until_endif (fst (V2.run (before ++ opening :: pre)))
          /\ V2.filter_lines (before ++ opening :: pre) = V2.filter_lines before)
      /\ V2.run (before ++ opening :: body ++ closing :: rest) = V2.run (before ++ rest).
Proof.
  split; [vm_compute; reflexivity|].
  intros before opening body closing rest Hs Ho Hb Hc.
  unfold V2.filter_lines, V2.run in *.
  destruct (fst (V2.loop V2.init [] before)) as [k stk] eqn:Hst.
  simpl in Hs. subst k. split.
  - intros pre suf ->. rewrite loop_app, Hst.
    destruct (block_start_skipped stk opening pre suf Ho Hb) as [dm Hdm].
    rewrite Hdm. cbn [fst snd V2.skip_until_endif].
    split; [lia | apply app_nil_r].
  - replace (opening :: body ++ closing :: rest)
      with ((opening :: body ++ [closing]) ++ rest)
      by (rewrite <- app_comm_cons, <- app_assoc; reflexivity).
    rewrite (loop_app _ before), Hst, (loop_app _ _ rest).
    rewrite (block_skipped stk opening body closing Ho Hb Hc).
    cbn [fst snd]. rewrite (loop_app _ before rest), Hst. reflexivity.
Qed.

Lemma target_block_removed_witness :
  V2.run ([] ++ str "#if os(macOS)"
             :: map str ["#if DEBUG"; "X"; "#endif"; "Y"]%string
             ++ str "#endif" :: [str "B"])
  = V2.run ([] ++ [str "B"]).
Proof.
  apply (proj2 target_block_removed); reflexivity.
Defined.

(** ** The order of the lines *)

(** C8: the output of the refined filter is the joining of lines kept from
    the input, each as it is and in the order of the input; the lines of
    the output are these lines (one empty line when none is kept). *)
Theorem output_is_subsequence (content : text) :
  exists kept : list text,
    V2.remove_macos_blocks content = join_lines kept
    /\ kept `sublist_of` split_lines content
    /\ split_lines (V2.remove_macos_blocks content)
       = match kept with [] => [[]] | _ => kept end.
Proof.
  exists (V2.filter_lines (split_lines content)).
  split; [reflexivity|]. split; [apply filter_lines_sublist|].
  rewrite split_filtered. destruct (V2.filter_lines (split_lines content)); reflexivity.
Qed.

(** ** A stray directive *)

(** C9: an [#else], [#elseif os(macOS)] or [#endif] line met while the skip
    counter is 0 and the stack is empty is dropped and changes nothing: the
    loop ends as it does on the input without this line. *)
Theorem stray_directive_dropped
    (before : list text) (line : text) (rest : list text) :
  V2.skip_until_endif (fst (V2.run before)) = 0 ->
  V2.stack (fst (V2.run before)) = [] ->
  re_match re_else line || re_match re_elseif_macos line || re_match re_endif line = true ->
  V2.run (before ++ line :: rest) = V2.run (before ++ rest).
Proof.
  unfold V2.run. intros Hs Hk Hl.
  destruct (fst (V2.loop V2.init [] before)) as [k stk] eqn:Hst.
  simpl in Hs, Hk. subst k stk.
  rewrite !loop_app, Hst, loop_cons.
  assert (Hif : re_match re_if line = false).
  { apply orb_true_iff in Hl as [Hl|Hl]; [apply orb_true_iff in Hl as [Hl|Hl]|].
    - apply re_else_not_if, Hl.
    - apply re_elseif_macos_not_if, Hl.
    - apply re_endif_not_if, Hl. }
  apply not_if_not_macos_ios in Hif as [Hm Hi].
  assert (Hstep : V2.step (V2.mkState 0 []) line = (V2.mkState 0 [], None)).
  { unfold V2.step. rewrite Hm, Hi. cbn [V2.skip_until_endif V2.stack].
    change (0 <? 0) with false. cbv iota.
    destruct (re_match re_elseif_macos line); [reflexivity|].
    destruct (re_match re_else line); [reflexivity|].
    destruct (re_match re_endif line); [reflexivity | discriminate Hl]. }
  rewrite Hstep. reflexivity.
Qed.

Lemma stray_directive_dropped_witness :
  V2.run ([str "A"] ++ str "#endif" :: [str "B"]) = V2.run ([str "A"] ++ [str "B"]).
Proof.
  apply stray_directive_dropped; reflexivity.
Defined.

(** ** The two filters *)

(** C10: the two filters differ, on the single line [#if !os(macOS)] and
    on the single line [#endif]. *)
Theorem filters_differ :
  (exists content : text,
      V1.remove_macos_conditionals content <> V2.remove_macos_blocks content)
  /\ V1.remove_macos_conditionals (str "#if !os(macOS)")
     <> V2.remove_macos_blocks (str "#if !os(macOS)")
  /\ V1.remove_macos_conditionals (str "#endif") <> V2.remove_macos_blocks (str "#endif").
Proof.
  split; [exists (str "#if !os(macOS)")|split]; vm_compute; discriminate.
Qed.

(** * Further properties of the two scripts *)

(** ** The state of the refined loop *)

Section RefinedState.

Import V2.
Implicit Types (st : state) (line l : text) (lines : list text).

Lemma Forall_removelast {A} (P : A -> Prop) (xs : list A) :
  Forall P xs -> Forall P (removelast xs).
Proof.
  induction 1 as [|x xs Hx Hxs IH]; [constructor|].
  cbn [removelast]. destruct xs; [constructor | constructor; assumption].
Qed.

Lemma step_state_ok st l :
  0 <= skip_until_endif st ->
  Forall (fun t => t = "ios"%string) (stack st) ->
  0 <= skip_until_endif (fst (step st l))
  /\ Forall (fun t => t = "ios"%string) (stack (fst (step st l))).
Proof.
  intros Hs Hk. unfold step.
  destruct (Z.ltb_spec 0 (skip_until_endif st));
    repeat match goal with
           | |- context [if ?b then _ else _] => destruct b
           end;
    cbn [fst skip_until_endif stack]; split;
    first [lia | assumption | apply Forall_removelast; assumption
          | apply Forall_app; split; [assumption | repeat constructor]].
Qed.

Lemma loop_state_ok lines : forall st,
  0 <= skip_until_endif st ->
  Forall (fun t => t = "ios"%string) (stack st) ->
  0 <= skip_until_endif (fst (loop st [] lines))
  /\ Forall (fun t => t = "ios"%string) (stack (fst (loop st [] lines))).
Proof.
  induction lines as [|l rest IH]; intros st Hs Hk; [split; assumption|].
  rewrite loop_cons. cbn [fst].
  destruct (step_state_ok st l Hs Hk) as [Hs' Hk']. apply IH; assumption.
Qed.

End RefinedState.

(** X1: whatever the input, the skip counter of the refined filter never
    goes below 0 and its stack holds nothing but ['ios'] markers. *)
Theorem refined_state_invariant (lines : list text) :
  0 <= V2.skip_until_endif (fst (V2.run lines))
  /\ Forall (fun t => t = "ios"%string) (V2.stack (fst (V2.run lines))).
Proof. apply loop_state_ok; [reflexivity | constructor]. Qed.

(** X2: a content in which no line is matched by a pattern of the refined
    loop comes back from [remove_macos_blocks] character for character. *)
Theorem refined_filter_identity (content : text) :
  Forall (fun l => recognised l = false) (split_lines content) ->
  V2.remove_macos_blocks content = content.
Proof.
  intros H. unfold V2.remove_macos_blocks.
  rewrite filter_lines_fixed by exact H. apply join_split.
Qed.

Lemma refined_filter_identity_witness :
  V2.remove_macos_blocks (lines_of ["import UIKit"; ""; "let x = 1"]%string)
  = lines_of ["import UIKit"; ""; "let x = 1"]%string.
Proof.
  apply refined_filter_identity. vm_compute. repeat constructor.
Defined.

(** X3: a target-platform block that is never closed takes the rest of the
    input with it: nothing after its opening line is kept, no error is
    raised, and the loop ends with the counter at one more than the number
    of [#if] lines left open behind it. *)
Theorem unterminated_block_drops_rest
    (before : list text) (opening : text) (rest : list text) (d : nat) :
  V2.skip_until_endif (fst (V2.run before)) = 0 ->
  re_match re_if_macos opening = true ->
  depth_after 0 rest = Some d ->
  V2.filter_lines (before ++ opening :: rest) = V2.filter_lines before
  /\ V2.skip_until_endif (fst (V2.run (before ++ opening :: rest))) = 1 + Z.of_nat d.
Proof.
  unfold V2.filter_lines, V2.run. intros Hs Ho Hd.
  destruct (fst (V2.loop V2.init [] before)) as [k stk] eqn:Hst.
  simpl in Hs. subst k.
  rewrite loop_app, Hst, loop_cons, (step_opening _ _ Ho).
  cbn [fst snd V2.skip_until_endif V2.stack].
  change (0 + 1) with (1 + Z.of_nat 0).
  rewrite (loop_skipping rest 0 d 1 stk) by (first [lia | exact Hd]).
  cbn [fst snd V2.skip_until_endif]. split; [apply app_nil_r | reflexivity].
Qed.

Lemma unterminated_block_drops_rest_witness :
  V2.filter_lines ([str "A"] ++ str "#if os(macOS)" :: map str ["B"; "#if X"; "C"]%string)
  = V2.filter_lines [str "A"].
Proof.
  apply (unterminated_block_drops_rest [str "A"] (str "#if os(macOS)")
           (map str ["B"; "#if X"; "C"]%string) 1); reflexivity.
Defined.

(** ** The lines the guard patterns match *)

Section Guards.

Implicit Types (s l r w lit g : text).

(** A pattern [^\s*#...\s+guard], read from the left: the white space is
    dropped, then come the [#] word, white space, and the guard. *)
Lemma re_match_guard lit (a : char) g s :
  is_space a = false ->
  re_match [Ws0; Lit (35%N :: lit); Ws1; Lit (a :: g)] s =
    match strip_prefix (35%N :: lit) (drop_space s) with
    | Some (c :: t) =>
        is_space c &&
        match strip_prefix (a :: g) (drop_space t) with
        | Some _ => true
        | None => false
        end
    | _ => false
    end.
Proof.
  intros Ha. rewrite re_match_hash. unfold re_match. rewrite rmatch_Lit.
  destruct (strip_prefix _ (drop_space s)) as [[|c t]|]; [reflexivity| |reflexivity].
  rewrite rmatch_Ws1. destruct (is_space c); [|reflexivity].
  rewrite ws_star_literal by exact Ha. rewrite rmatch_Lit.
  destruct (strip_prefix _ (drop_space t)); reflexivity.
Qed.

(** The same as a shape of the line: white space, the [#] word, at least
    one white-space character, the guard, and anything after it. *)
Lemma re_match_guard_shape lit (a : char) g s :
  is_space a = false ->
  re_match [Ws0; Lit (35%N :: lit); Ws1; Lit (a :: g)] s = true <->
  exists w1 w2 r,
    s = w1 ++ (35%N :: lit) ++ w2 ++ (a :: g) ++ r
    /\ all_space w1 /\ w2 <> [] /\ all_space w2.
Proof.
  intros Ha. rewrite (re_match_guard lit a g s Ha). split.
  - destruct (strip_prefix _ (drop_space s)) as [[|c t]|] eqn:H1; try discriminate.
    apply strip_prefix_Some in H1.
    intros [Hc Hm]%andb_true_iff.
    destruct (strip_prefix _ (drop_space t)) as [r|] eqn:H2; [|discriminate Hm].
    apply strip_prefix_Some in H2.
    destruct (drop_space_split s) as (w1 & Hs & Hw1).
    destruct (drop_space_split t) as (w & Ht & Hw).
    exists w1, (c :: w), r. repeat split.
    + rewrite Hs at 1. rewrite H1. rewrite Ht at 1. rewrite H2. reflexivity.
    + exact Hw1.
    + discriminate.
    + constructor; assumption.
  - intros (w1 & w2 & r & -> & Hw1 & Hne & Hw2).
    rewrite drop_space_app by exact Hw1.
    rewrite <- (app_comm_cons _ _ 35%N), drop_space_head by reflexivity.
    rewrite (app_comm_cons _ _ 35%N), strip_prefix_app.
    destruct Hw2 as [|c w Hc Hw]; [congruence|].
    rewrite <- app_comm_cons, Hc, drop_space_app by exact Hw.
    rewrite <- (app_comm_cons _ _ a), drop_space_head by exact Ha.
    rewrite (app_comm_cons _ _ a), strip_prefix_app. reflexivity.
Qed.

Lemma re_if_macos_shape l :
  re_match re_if_macos l = true <->
  exists w1 w2 r,
    l = w1 ++ str "#if" ++ w2 ++ str "os(macOS)" ++ r
    /\ all_space w1 /\ w2 <> [] /\ all_space w2.
Proof. apply (re_match_guard_shape (str "if") 111%N (str "s(macOS)")). reflexivity. Qed.

Lemma re_if_ios_not_macos l :
  re_match re_if_ios l = true -> re_match re_if_macos l = false.
Proof.
  unfold re_if_ios, re_if_macos.
  change (str "#if") with (35%N :: str "if").
  change (str "os(iOS)") with (111%N :: str "s(iOS)").
  change (str "os(macOS)") with (111%N :: str "s(macOS)").
  rewrite !re_match_guard by reflexivity.
  destruct (strip_prefix _ (drop_space l)) as [[|c t]|]; try discriminate.
  intros [_ Hm]%andb_true_iff.
  destruct (strip_prefix _ (drop_space t)) as [r|] eqn:H1 in Hm; [|discriminate Hm].
  apply strip_prefix_Some in H1. rewrite H1. apply andb_false_r.
Qed.

(** White space put before a line changes nothing for a pattern that
    starts with [^\s*#]. *)
Lemma re_match_hash_indent lit (p : regex) w l :
  all_space w ->
  re_match (Ws0 :: Lit (35%N :: lit) :: p) (w ++ l)
  = re_match (Ws0 :: Lit (35%N :: lit) :: p) l.
Proof. intros Hw. rewrite !re_match_hash, drop_space_app by exact Hw. reflexivity. Qed.

Lemma re_endif_not_else l :
  re_match re_endif l = true ->
  re_match re_else l = false /\ re_match re_elseif_macos l = false.
Proof.
  intros H. apply hash_prefix in H as [r Hr]. split.
  - destruct (re_match re_else l) eqn:E; [|reflexivity].
    apply hash_prefix in E as [r' Hr']. rewrite Hr in Hr'. discriminate Hr'.
  - destruct (re_match re_elseif_macos l) eqn:E; [|reflexivity].
    apply hash_prefix in E as [r' Hr']. rewrite Hr in Hr'. discriminate Hr'.
Qed.

End Guards.

(** X4: a line opens a target-platform block for both scripts exactly when
    it is made of white space, [#if], at least one white-space character,
    [os(macOS)] and then anything at all: what follows the guard, such as
    [|| os(iOS)], plays no part. *)
Theorem target_opening_shape (line : text) :
  re_match re_if_macos line = true <->
  exists w1 w2 r : text,
    line = w1 ++ str "#if" ++ w2 ++ str "os(macOS)" ++ r
    /\ all_space w1 /\ w2 <> [] /\ all_space w2.
Proof. apply re_if_macos_shape. Qed.

(** X5: the indentation of a line plays no part in how the refined loop
    takes it: white space before a line changes the result of none of its
    six pattern tests. *)
Theorem indentation_ignored (w line : text) :
  all_space w ->
  re_match re_if_macos (w ++ line) = re_match re_if_macos line
  /\ re_match re_if (w ++ line) = re_match re_if line
  /\ re_match re_endif (w ++ line) = re_match re_endif line
  /\ re_match re_if_ios (w ++ line) = re_match re_if_ios line
  /\ re_match re_elseif_macos (w ++ line) = re_match re_elseif_macos line
  /\ re_match re_else (w ++ line) = re_match re_else line.
Proof.
  intros Hw. unfold re_if_macos, re_if_ios, re_elseif_macos, re_else, re_endif, re_if.
  change (str "#if") with (35%N :: str "if").
  change (str "#elseif") with (35%N :: str "elseif").
  change (str "#else") with (35%N :: str "else").
  change (str "#endif") with (35%N :: str "endif").
  repeat split; apply re_match_hash_indent, Hw.
Qed.

Lemma indentation_ignored_witness :
  re_match re_endif (str "    " ++ str "#endif") = re_match re_endif (str "#endif").
Proof.
  apply (indentation_ignored (str "    ") (str "#endif")). repeat constructor.
Defined.

(** ** Blocks of the kept platform *)

Section IosBlocks.

Import V2.
Implicit Types (st : state) (line l : text) (lines body : list text).

Lemma top_is_ios_snoc stk : top_is_ios (stk ++ ["ios"%string]) = true.
Proof. unfold top_is_ios. rewrite last_snoc. reflexivity. Qed.

Lemma pop_snoc stk (t : string) : pop (stk ++ [t]) = stk.
Proof. apply removelast_last. Qed.

Lemma step_ios_opening stk l :
  re_match re_if_ios l = true ->
  step (mkState 0 stk) l = (mkState 0 (stk ++ ["ios"%string]), None).
Proof.
  intros H. unfold step. rewrite (re_if_ios_not_macos _ H), H. reflexivity.
Qed.

Lemma step_ios_closing stk l :
  re_match re_endif l = true ->
  step (mkState 0 (stk ++ ["ios"%string])) l = (mkState 0 stk, None).
Proof.
  intros H. unfold step.
  destruct (not_if_not_macos_ios _ (re_endif_not_if _ H)) as [-> ->].
  destruct (re_endif_not_else _ H) as [-> ->]. rewrite H.
  cbn [skip_until_endif stack]. rewrite top_is_ios_snoc, pop_snoc. reflexivity.
Qed.

Lemma step_ios_branch stk l :
  re_match re_else l || re_match re_elseif_macos l = true ->
  step (mkState 0 (stk ++ ["ios"%string])) l = (mkState 1 (stk ++ ["ios"%string]), None).
Proof.
  intros H. unfold step.
  assert (Hif : re_match re_if l = false).
  { apply orb_true_iff in H as [H|H];
      [apply re_else_not_if, H | apply re_elseif_macos_not_if, H]. }
  destruct (not_if_not_macos_ios _ Hif) as [-> ->].
  cbn [skip_until_endif stack]. rewrite top_is_ios_snoc.
  destruct (re_match re_elseif_macos l); [reflexivity|].
  destruct (re_match re_else l); [reflexivity | discriminate H].
Qed.

End IosBlocks.

(** X6: an [#if os(iOS)] block without a second branch, met while the
    refined filter is not skipping, is unwrapped: when no line of its body
    is matched by a pattern of the loop, the run is the run on the input
    with the opening and the closing line taken out. *)
Theorem ios_block_unwrapped
    (before : list text) (opening : text) (body : list text)
    (closing : text) (rest : list text) :
  V2.skip_until_endif (fst (V2.run before)) = 0 ->
  re_match re_if_ios opening = true ->
  Forall (fun l => recognised l = false) body ->
  re_match re_endif closing = true ->
  V2.run (before ++ opening :: body ++ closing :: rest) = V2.run (before ++ body ++ rest).
Proof.
  unfold V2.run. intros Hs Ho Hb Hc.
  destruct (fst (V2.loop V2.init [] before)) as [k stk] eqn:Hst.
  simpl in Hs. subst k.
  rewrite !(loop_app _ before), Hst.
  rewrite loop_cons, (step_ios_opening _ _ Ho). cbn [fst snd].
  rewrite !loop_app, !(loop_plain _ body) by (simpl; first [lia | exact Hb]).
  cbn [fst snd]. rewrite loop_cons, (step_ios_closing _ _ Hc). reflexivity.
Qed.

Lemma ios_block_unwrapped_witness :
  V2.run ([str "x"] ++ str "#if os(iOS)" :: [str "A"] ++ str "#endif" :: [str "B"])
  = V2.run ([str "x"] ++ [str "A"] ++ [str "B"]).
Proof.
  apply ios_block_unwrapped; [reflexivity | reflexivity | | reflexivity].
  repeat constructor.
Defined.

(** X7: of an [#if os(iOS)] block with an [#else] or [#elseif os(macOS)]
    branch, met while the refined filter is not skipping, the first body is
    kept and the well-nested second body is dropped; the loop goes on not
    skipping, with one ['ios'] marker more on its stack than before. *)
Theorem ios_block_second_branch_dropped
    (before : list text) (opening : text) (body1 : list text) (branch : text)
    (body2 : list text) (closing : text) :
  V2.skip_until_endif (fst (V2.run before)) = 0 ->
  re_match re_if_ios opening = true ->
  Forall (fun l => recognised l = false) body1 ->
  re_match re_else branch || re_match re_elseif_macos branch = true ->
  well_nested body2 ->
  re_match re_endif closing = true ->
  V2.run (before ++ opening :: body1 ++ branch :: body2 ++ [closing])
  = (V2.mkState 0 (V2.stack (fst (V2.run before)) ++ ["ios"%string]),
     V2.filter_lines before ++ body1).
Proof.
  unfold V2.filter_lines, V2.run. intros Hs Ho H1 Hbr H2 Hc.
  destruct (fst (V2.loop V2.init [] before)) as [k stk] eqn:Hst.
  simpl in Hs. subst k. cbn [V2.stack].
  rewrite (loop_app _ before), Hst.
  rewrite loop_cons, (step_ios_opening _ _ Ho). cbn [fst snd].
  rewrite loop_app, (loop_plain _ body1) by (simpl; first [lia | exact H1]).
  cbn [fst snd]. rewrite loop_cons, (step_ios_branch _ _ Hbr). cbn [fst snd].
  assert (Hskip : V2.loop (V2.mkState 1 (stk ++ ["ios"%string])) [] body2
                  = (V2.mkState 1 (stk ++ ["ios"%string]), []))
    by (apply (loop_skipping body2 0 0 1); [lia | exact H2]).
  rewrite loop_app, Hskip. cbn [fst snd].
  rewrite loop_cons, step_skipping by (simpl; lia).
  rewrite (re_endif_not_if _ Hc), Hc. cbn [fst snd V2.skip_until_endif V2.stack V2.loop].
  rewrite !app_nil_r. reflexivity.
Qed.

Lemma ios_block_second_branch_dropped_witness :
  V2.run ([] ++ str "#if os(iOS)" :: [str "A"] ++ str "#else" :: [str "C"] ++ [str "#endif"])
  = (V2.mkState 0 ([] ++ ["ios"%string]), [] ++ [str "A"]).
Proof.
  apply (ios_block_second_branch_dropped [] (str "#if os(iOS)") [str "A"]
           (str "#else") [str "C"] (str "#endif"));
    [reflexivity | reflexivity | | reflexivity | reflexivity | reflexivity].
  repeat constructor.
Defined.

(** ** What [process_file] writes back *)

Section Rewriting.

Implicit Types (s l r needle : text) (ls kept lines : list text).

Lemma join_lines_cons l ls :
  join_lines (l :: ls) = l ++ match ls with [] => [] | _ => NL :: join_lines ls end.
Proof. destruct ls; [symmetry; apply app_nil_r | reflexivity]. Qed.

(** Joining fewer lines gives a text that is part of the joining of all of
    them. *)
Lemma join_lines_sublist kept lines :
  kept `sublist_of` lines -> join_lines kept `sublist_of` join_lines lines.
Proof.
  induction 1 as [|x k l Hkl IH|x k l Hkl IH].
  - constructor.
  - rewrite !join_lines_cons. apply sublist_app; [reflexivity|].
    destruct k as [|y k]; [apply sublist_nil_l|].
    destruct l as [|z l]; [apply sublist_nil_r in Hkl; discriminate Hkl|].
    apply sublist_skip, IH.
  - rewrite join_lines_cons. apply sublist_inserts_l.
    destruct l as [|z l].
    + apply sublist_nil_r in Hkl as ->. constructor.
    + apply sublist_cons, IH.
Qed.

Lemma re_sub_del_sublist (p : regex) s : forall k : nat,
  re_sub_del p k s `sublist_of` s.
Proof.
  induction s as [|c t IH]; intros k; cbn [re_sub_del]; [constructor|].
  destruct k as [|k]; [|apply sublist_cons, IH].
  destruct (rmatch p (c :: t)); [|apply sublist_skip, IH].
  destruct (length (c :: t) - length t0)%nat;
    [apply sublist_skip, IH | apply sublist_cons, IH].
Qed.

Lemma sublist_same_length {A} (l1 l2 : list A) :
  l1 `sublist_of` l2 -> (length l2 <= length l1)%nat -> l1 = l2.
Proof.
  induction 1 as [|x k l Hkl IH|x k l Hkl IH]; cbn [length]; intros Hlen.
  - reflexivity.
  - f_equal. apply IH. lia.
  - apply sublist_length in Hkl. lia.
Qed.

Lemma remove_macos_blocks_sublist content :
  V2.remove_macos_blocks content `sublist_of` content.
Proof.
  unfold V2.remove_macos_blocks. rewrite <- (join_split content) at 2.
  apply join_lines_sublist, filter_lines_sublist.
Qed.

Lemma new_content_sublist content : V2.new_content content `sublist_of` content.
Proof.
  unfold V2.new_content, V2.remove_imports.
  etransitivity; [apply re_sub_del_sublist | apply remove_macos_blocks_sublist].
Qed.

(** ['needle' in s] holds exactly when [needle] stands somewhere in [s]. *)
Lemma contains_true needle s :
  V2.contains needle s = true <-> exists pre post, s = pre ++ needle ++ post.
Proof.
  induction s as [|c t IH]; cbn [V2.contains].
  - destruct (strip_prefix needle []) as [r|] eqn:Hp.
    + apply strip_prefix_Some in Hp. split; [|reflexivity].
      intros _. exists [], r. exact Hp.
    + split; [discriminate|]. intros (pre & post & H).
      destruct pre; [|discriminate H].
      cbn [app] in H. apply strip_prefix_Some in H. congruence.
  - destruct (strip_prefix needle (c :: t)) as [r|] eqn:Hp.
    + apply strip_prefix_Some in Hp. split; [|reflexivity].
      intros _. exists [], r. exact Hp.
    + rewrite IH. split.
      * intros (pre & post & ->). exists (c :: pre), post. reflexivity.
      * intros (pre & post & H). destruct pre as [|c' pre].
        -- cbn [app] in H. apply strip_prefix_Some in H. congruence.
        -- injection H as _ ->. eauto.
Qed.

(** A line of a content stands in the content. *)
Lemma split_lines_elem l s :
  l ∈ split_lines s -> exists pre post, s = pre ++ l ++ post.
Proof.
  revert l. induction s as [|c t IH]; intros l; cbn [split_lines].
  - intros ->%list_elem_of_singleton. exists [], []. reflexivity.
  - destruct (N.eqb_spec c NL) as [->|_].
    + intros [->|Hin]%elem_of_cons.
      * exists [], (NL :: t). reflexivity.
      * destruct (IH _ Hin) as (pre & post & ->). exists (NL :: pre), post. reflexivity.
    + pose proof (split_lines_not_nil t) as Hne. pose proof (join_split t) as Hj.
      destruct (split_lines t) as [|l0 ls]; [congruence|].
      intros [->|Hin]%elem_of_cons.
      * rewrite join_lines_cons in Hj. subst t.
        exists [], (match ls with [] => [] | _ => NL :: join_lines ls end).
        reflexivity.
      * destruct (IH l (list_elem_of_further _ _ _ Hin)) as (pre & post & ->).
        exists (c :: pre), post. reflexivity.
Qed.

Lemma contains_line needle l s :
  l ∈ split_lines s -> V2.contains needle l = true -> V2.contains needle s = true.
Proof.
  intros (pre & post & ->)%split_lines_elem (a & b & ->)%contains_true.
  apply contains_true. exists (pre ++ a), (b ++ post).
  rewrite <- !app_assoc. reflexivity.
Qed.

(** A content with a line that a pattern of the refined loop matches is
    changed by the filter. *)
Lemma recognised_line_changes l content :
  l ∈ split_lines content -> recognised l = true ->
  V2.remove_macos_blocks content <> content.
Proof.
  intros Hin Hr Heq.
  pose proof (split_filtered content) as Hsp. rewrite Heq in Hsp.
  pose proof (filter_lines_plain (split_lines content)) as Hp.
  destruct (V2.filter_lines (split_lines content)) as [|k ks].
  - rewrite Hsp in Hin. apply list_elem_of_singleton in Hin as ->. discriminate Hr.
  - rewrite <- Hsp in Hp. rewrite Forall_forall in Hp. rewrite (Hp l Hin) in Hr.
    discriminate Hr.
Qed.

End Rewriting.

(** ** Filtering twice *)

Section Twice.

Implicit Types (x y : text).

(** The line filter gives a content back as it is exactly when no line of
    the content is matched by a pattern of its loop. *)
Lemma remove_macos_blocks_fixed y :
  V2.remove_macos_blocks y = y <->
  Forall (fun l => recognised l = false) (split_lines y).
Proof.
  split.
  - intros Heq. pose proof (split_filtered y) as Hsp. rewrite Heq in Hsp.
    pose proof (filter_lines_plain (split_lines y)) as Hp.
    destruct (V2.filter_lines (split_lines y)) as [|k ks].
    + rewrite Hsp. repeat constructor.
    + rewrite Hsp. exact Hp.
  - intros H. unfold V2.remove_macos_blocks.
    rewrite filter_lines_fixed by exact H. apply join_split.
Qed.

(** A content that the whole filter gives back as it is is given back as it
    is by the line filter already: both steps only delete. *)
Lemma new_content_fixed y :
  V2.new_content y = y ->
  V2.remove_macos_blocks y = y /\ V2.remove_imports y = y.
Proof.
  intros H.
  assert (Hb : V2.remove_macos_blocks y = y).
  { apply sublist_same_length; [apply remove_macos_blocks_sublist|].
    rewrite <- H at 1. apply sublist_length.
    unfold V2.new_content, V2.remove_imports. apply re_sub_del_sublist. }
  split; [exact Hb|]. unfold V2.new_content in H. rewrite Hb in H. exact H.
Qed.

End Twice.

(** C5, as the code has it: the line filter alone gives the same when
    applied to its own output.  The whole filter, with the removal of the
    imports, gives the same when applied to its own output exactly when that
    output has nothing left to remove: no line that a pattern of the loop
    matches and no occurrence of the import pattern.  This is so for every
    input from whose filtered lines the removal of the imports deletes
    nothing. *)
Theorem filter_twice (x : text) :
  V2.remove_macos_blocks (V2.remove_macos_blocks x) = V2.remove_macos_blocks x
  /\ (V2.new_content (V2.new_content x) = V2.new_content x <->
      Forall (fun l => recognised l = false) (split_lines (V2.new_content x))
      /\ V2.remove_imports (V2.new_content x) = V2.new_content x)
  /\ (V2.remove_imports (V2.remove_macos_blocks x) = V2.remove_macos_blocks x ->
      V2.new_content (V2.new_content x) = V2.new_content x).
Proof.
  split; [apply remove_macos_blocks_idem|]. split.
  - rewrite <- remove_macos_blocks_fixed. split.
    + apply new_content_fixed.
    + intros [Hb Hi]. unfold V2.new_content at 1. rewrite Hb. exact Hi.
  - intros H. unfold V2.new_content. rewrite H, remove_macos_blocks_idem, H. reflexivity.
Qed.

Lemma filter_twice_witness :
  V2.new_content
    (V2.new_content
       (lines_of ["#if os(macOS)"; "A"; "#endif"; "import AppKit"; "B"]%string))
  = V2.new_content
      (lines_of ["#if os(macOS)"; "A"; "#endif"; "import AppKit"; "B"]%string).
Proof.
  apply (proj2 (proj1 (proj2
           (filter_twice
              (lines_of ["#if os(macOS)"; "A"; "#endif"; "import AppKit"; "B"]%string))))).
  split; vm_compute; [repeat constructor | reflexivity].
Defined.

(** The removal of the imports can put a new import line together, which a
    second application then deletes. *)
Lemma filter_twice_differs :
  V2.new_content
    (V2.new_content (lines_of ["// os(macOS)"; "import Appimport AppKit"; "Kit"; ""]%string))
  <> V2.new_content (lines_of ["// os(macOS)"; "import Appimport AppKit"; "Kit"; ""]%string)
  /\ V2.file_after
       (V2.file_after (lines_of ["// os(macOS)"; "import Appimport AppKit"; "Kit"; ""]%string))
     <> V2.file_after (lines_of ["// os(macOS)"; "import Appimport AppKit"; "Kit"; ""]%string).
Proof. split; vm_compute; discriminate. Qed.

(** X8: [process_file] of the refined script only deletes: the content it
    computes is the original content with characters left out, none added,
    changed or moved. *)
Theorem new_content_only_deletes (content : text) :
  V2.new_content content `sublist_of` content.
Proof. apply new_content_sublist. Qed.

(** X9: whenever [process_file] of the refined script writes a file back,
    the content had the marker ['os(macOS)'] and the new content is
    strictly shorter than the old one. *)
Theorem process_file_shrinks (content nc : text) :
  V2.process_file content = Some nc ->
  V2.contains (str "os(macOS)") content = true
  /\ nc = V2.new_content content
  /\ (length nc < length content)%nat.
Proof.
  unfold V2.process_file.
  destruct (V2.contains (str "os(macOS)") content); [|discriminate].
  cbn [negb]. destruct (decide (V2.new_content content = content)) as [|Hne];
    [discriminate|].
  intros [= <-]. split; [reflexivity|]. split; [reflexivity|].
  pose proof (new_content_sublist content) as Hsub.
  destruct (Nat.lt_ge_cases (length (V2.new_content content)) (length content))
    as [Hlt|Hge]; [exact Hlt|].
  destruct Hne. apply sublist_same_length; assumption.
Qed.

Lemma process_file_shrinks_witness :
  (length (str "B") < length (lines_of ["#if os(macOS)"; "A"; "#endif"; "B"]%string))%nat.
Proof.
  apply (process_file_shrinks (lines_of ["#if os(macOS)"; "A"; "#endif"; "B"]%string)).
  vm_compute. reflexivity.
Defined.

(** X10: on the content of a file with a line that opens a
    target-platform block, neither test of [process_file] of the refined
    script ends the work: the marker ['os(macOS)'] is in the content, and
    the new content differs from the content read, so the script goes on to
    write the file. *)
Theorem target_block_file_passes_tests (content line : text) :
  line ∈ split_lines content ->
  re_match re_if_macos line = true ->
  V2.contains (str "os(macOS)") content = true
  /\ V2.new_content content <> content.
Proof.
  intros Hin Hm. split.
  - apply (contains_line _ line); [exact Hin|].
    apply re_if_macos_shape in Hm as (w1 & w2 & r & -> & _).
    apply contains_true. exists (w1 ++ str "#if" ++ w2), r.
    rewrite <- !app_assoc. reflexivity.
  - intros Heq.
    apply (recognised_line_changes line content Hin);
      [unfold recognised; rewrite Hm; reflexivity|].
    apply sublist_same_length; [apply remove_macos_blocks_sublist|].
    rewrite <- Heq at 1. apply sublist_length.
    unfold V2.new_content, V2.remove_imports. apply re_sub_del_sublist.
Qed.

Lemma target_block_file_passes_tests_witness :
  V2.contains (str "os(macOS)") (lines_of ["#if os(macOS)"; "A"; "#endif"; "B"]%string) = true
  /\ V2.new_content (lines_of ["#if os(macOS)"; "A"; "#endif"; "B"]%string)
     <> lines_of ["#if os(macOS)"; "A"; "#endif"; "B"]%string.
Proof.
  apply (target_block_file_passes_tests _ (str "#if os(macOS)")); [|reflexivity].
  vm_compute. apply list_elem_of_here.
Defined.

Section ImportFree.

Implicit Types (s needle : text).

Lemma contains_false_cons needle (c : char) s :
  V2.contains needle (c :: s) = false ->
  strip_prefix needle (c :: s) = None /\ V2.contains needle s = false.
Proof.
  cbn [V2.contains]. destruct (strip_prefix needle (c :: s)); [discriminate|].
  intros H. split; [reflexivity | exact H].
Qed.

Lemma re_sub_del_no_literal (l : text) (p : regex) s :
  V2.contains l s = false -> re_sub_del (Lit l :: p) 0 s = s.
Proof.
  induction s as [|c t IH]; intros H; [reflexivity|].
  apply contains_false_cons in H as [Hp Ht].
  rewrite re_sub_del_scan, rmatch_Lit, Hp, (IH Ht). reflexivity.
Qed.

End ImportFree.

(** X11: the removal of the imports leaves a content in which the word
    [import] does not stand as it is. *)
Theorem remove_imports_without_import (content : text) :
  V2.contains (str "import") content = false ->
  V2.remove_imports content = content.
Proof. apply re_sub_del_no_literal. Qed.

Lemma remove_imports_without_import_witness :
  V2.remove_imports (lines_of ["let a = AppKit"; ""]%string)
  = lines_of ["let a = AppKit"; ""]%string.
Proof. apply remove_imports_without_import. reflexivity. Defined.

(** ** The first filter *)

Section FirstLoop.

Import V1.
Implicit Types (st : state) (line l : text) (lines res body : list text).

Local Abbreviation emitted1 st lines := (snd (loop st [] lines)).
Local Abbreviation state_after1 st lines := (fst (loop st [] lines)).

Lemma loop1_result st res lines :
  loop st res lines = (state_after1 st lines, res ++ emitted1 st lines).
Proof.
  revert st res. induction lines as [|l rest IH]; intros st res; cbn [loop].
  - simpl. rewrite app_nil_r. reflexivity.
  - destruct (step st l) as [st' [l'|]].
    + rewrite (IH st' (res ++ [l'])), (IH st' ([] ++ [l'])).
      simpl. rewrite <- app_assoc. reflexivity.
    + apply IH.
Qed.

Lemma loop1_cons st l lines :
  loop st [] (l :: lines) =
    (state_after1 (fst (step st l)) lines,
     match snd (step st l) with
     | Some l' => l' :: emitted1 (fst (step st l)) lines
     | None => emitted1 (fst (step st l)) lines
     end).
Proof.
  cbn [loop]. destruct (step st l) as [st' [l'|]]; simpl;
    rewrite loop1_result; reflexivity.
Qed.

Lemma loop1_app st lines1 lines2 :
  loop st [] (lines1 ++ lines2) =
    (state_after1 (state_after1 st lines1) lines2,
     emitted1 st lines1 ++ emitted1 (state_after1 st lines1) lines2).
Proof.
  revert st. induction lines1 as [|l rest IH]; intros st.
  - simpl. destruct (loop st [] lines2); reflexivity.
  - rewrite <- app_comm_cons, !loop1_cons, IH. simpl.
    destruct (snd (step st l)); reflexivity.
Qed.

(** The first filter appends a line only as it is, only while it is not
    skipping, and never a line that opens a block it knows. *)
Lemma step1_emits st l st' l' :
  step st l = (st', Some l') ->
  st' = st /\ l' = l /\ skip_depth st = 0 /\ opens_known_block l = false.
Proof.
  unfold step, opens_known_block.
  destruct (re_match re_if_macos l); [discriminate|].
  destruct (re_match re_if_ios l); [discriminate|].
  destruct (re_match re_if_not_macos l); [discriminate|].
  destruct (Z.eqb_spec (skip_depth st) 0) as [Hz|Hz];
    repeat match goal with
           | |- context [if ?b then _ else _] => destruct b
           end; intros [= <- <-]; auto.
Qed.

Lemma emitted1_sublist st lines : emitted1 st lines `sublist_of` lines.
Proof.
  revert st. induction lines as [|l rest IH]; intros st.
  - constructor.
  - rewrite loop1_cons. cbn [snd].
    destruct (step st l) as [st' [l'|]] eqn:Hstep; cbn [fst snd].
    + apply step1_emits in Hstep as (_ & -> & _). apply sublist_skip, IH.
    + apply sublist_cons, IH.
Qed.

Lemma emitted1_no_opening st lines :
  Forall (fun l => opens_known_block l = false) (emitted1 st lines).
Proof.
  revert st. induction lines as [|l rest IH]; intros st.
  - constructor.
  - rewrite loop1_cons. cbn [snd].
    destruct (step st l) as [st' [l'|]] eqn:Hstep; cbn [fst snd]; [|apply IH].
    apply step1_emits in Hstep as (_ & -> & _ & Hr). constructor; [exact Hr | apply IH].
Qed.

(** Outside every block, a line that opens no known block is appended and
    the state stays the first one: a stray [#else] or [#endif] too. *)
Lemma step1_init l : opens_known_block l = false -> step init l = (init, Some l).
Proof.
  unfold opens_known_block. intros H.
  apply orb_false_elim in H as [H H3]. apply orb_false_elim in H as [H1 H2].
  unfold step. rewrite H1, H2, H3. cbn.
  destruct (re_match re_else l), (re_match re_endif_eol l); reflexivity.
Qed.

Lemma loop1_init lines :
  Forall (fun l => opens_known_block l = false) lines -> loop init [] lines = (init, lines).
Proof.
  induction 1 as [|l rest Hl _ IH]; [reflexivity|].
  rewrite loop1_cons, (step1_init l Hl). cbn [fst snd]. rewrite IH. reflexivity.
Qed.

Lemma step1_ok st l : state1_ok st -> state1_ok (fst (step st l)).
Proof.
  destruct st as [k ios d]. unfold state1_ok. cbn [skip_depth ios_depth in_ios_block].
  intros (Hk & Hd & ->). unfold step. cbn [skip_depth ios_depth in_ios_block].
  destruct (Z.ltb_spec 0 k), (Z.ltb_spec 0 d), (Z.eqb_spec (d - 1) 0), (Z.eqb_spec k 0);
    repeat match goal with
           | |- context [if re_match ?p l then _ else _] => destruct (re_match p l)
           end;
    cbn [fst skip_depth ios_depth in_ios_block andb];
    repeat split; try lia;
    symmetry; first [apply Z.ltb_lt; lia | apply Z.ltb_ge; lia].
Qed.

Lemma loop1_ok lines : forall st, state1_ok st -> state1_ok (state_after1 st lines).
Proof.
  induction lines as [|l rest IH]; intros st Hst; [exact Hst|].
  rewrite loop1_cons. cbn [fst]. apply IH, step1_ok, Hst.
Qed.

End FirstLoop.

Section FirstBlocks.

Import V1.
Implicit Types (st : state) (line l : text) (lines body : list text).

Lemma re_if_not_macos_if l : re_match re_if_not_macos l = true -> re_match re_if l = true.
Proof. intros H. apply re_if_prefix. apply hash_prefix in H as [r Hr]. exists r. exact Hr. Qed.

Lemma re_endif_eol_endif l : re_match re_endif_eol l = true -> re_match re_endif l = true.
Proof.
  intros H. apply hash_prefix in H as [r Hr]. unfold re_endif.
  change (str "#endif") with (35%N :: str "endif").
  rewrite re_match_hash, Hr. reflexivity.
Qed.

Lemma re_endif_eol_only l :
  re_match re_endif_eol l = true ->
  opens_known_block l = false /\ re_match re_else l = false.
Proof.
  intros H. apply re_endif_eol_endif in H.
  pose proof (re_endif_not_if _ H) as Hif.
  destruct (not_if_not_macos_ios _ Hif) as [H1 H2].
  unfold opens_known_block. rewrite H1, H2. split; [|apply re_endif_not_else, H].
  destruct (re_match re_if_not_macos l) eqn:E; [|reflexivity].
  apply re_if_not_macos_if in E. congruence.
Qed.

Lemma step1_opening st l :
  re_match re_if_macos l = true ->
  step st l = (mkState (skip_depth st + 1) (in_ios_block st) (ios_depth st), None).
Proof. intros H. unfold step. rewrite H. reflexivity. Qed.

(** While the first filter skips, a line that opens no target or iOS block
    and is no bare [#endif] changes nothing: an [#if] of another kind is
    not counted. *)
Lemma step1_skipping st l :
  0 < skip_depth st ->
  re_match re_if_macos l = false ->
  re_match re_if_ios l = false ->
  re_match re_endif_eol l = false ->
  step st l = (st, None).
Proof.
  intros Hs H1 H2 H3. unfold step. rewrite H1, H2, H3.
  destruct (Z.ltb_spec 0 (skip_depth st)); [|lia].
  destruct (Z.eqb_spec (skip_depth st) 0); [lia|].
  destruct (re_match re_if_not_macos l), (re_match re_else l); reflexivity.
Qed.

Lemma step1_closing st l :
  0 < skip_depth st ->
  re_match re_endif_eol l = true ->
  step st l = (mkState (skip_depth st - 1) (in_ios_block st) (ios_depth st), None).
Proof.
  intros Hs H. destruct (re_endif_eol_only _ H) as [Ho He].
  unfold opens_known_block in Ho.
  apply orb_false_elim in Ho as [Ho H3]. apply orb_false_elim in Ho as [H1 H2].
  unfold step. rewrite H1, H2, H3, He, H.
  destruct (Z.ltb_spec 0 (skip_depth st)); [reflexivity | lia].
Qed.

Lemma loop1_skipping body : forall st,
  0 < skip_depth st ->
  Forall (fun l => re_match re_if_macos l = false /\ re_match re_if_ios l = false
                   /\ re_match re_endif_eol l = false) body ->
  loop st [] body = (st, []).
Proof.
  induction body as [|l rest IH]; intros st Hs Hb; [reflexivity|].
  inversion Hb as [|? ? (H1 & H2 & H3) Hrest]; subst.
  rewrite loop1_cons, (step1_skipping st l Hs H1 H2 H3). cbn [fst snd].
  rewrite (IH st Hs Hrest). reflexivity.
Qed.

End FirstBlocks.

(** X12: whatever the input, the counters of the first filter never go
    below 0, and its flag [in_ios_block] is set exactly while [ios_depth]
    is above 0. *)
Theorem first_state_invariant (lines : list text) :
  state1_ok (fst (V1.loop V1.init [] lines)).
Proof. apply loop1_ok. unfold state1_ok. cbn. repeat split; reflexivity. Qed.

(** X13: the output of the first filter is the joining of lines kept from
    the input, each as it is and in the order of the input, and no line
    that opens a target, iOS or not-target block is among them. *)
Theorem first_filter_output (content : text) :
  exists kept : list text,
    V1.remove_macos_conditionals content = join_lines kept
    /\ kept `sublist_of` split_lines content
    /\ Forall (fun l => opens_known_block l = false) kept.
Proof.
  exists (V1.filter_lines (split_lines content)).
  split; [reflexivity|]. split; [apply emitted1_sublist | apply emitted1_no_opening].
Qed.

(** X14: a content in which no line opens a target, iOS or not-target block
    comes back from the first filter character for character, with every
    [#else] and [#endif] line it holds. *)
Theorem first_filter_identity (content : text) :
  Forall (fun l => opens_known_block l = false) (split_lines content) ->
  V1.remove_macos_conditionals content = content.
Proof.
  intros H. unfold V1.remove_macos_conditionals, V1.filter_lines.
  rewrite (loop1_init _ H). apply join_split.
Qed.

Lemma first_filter_identity_witness :
  V1.remove_macos_conditionals (lines_of ["#if DEBUG"; "A"; "#else"; "B"; "#endif"]%string)
  = lines_of ["#if DEBUG"; "A"; "#else"; "B"; "#endif"]%string.
Proof. apply first_filter_identity. vm_compute. repeat constructor. Defined.

(** X15: the first filter ends a target-platform block at the first bare
    [#endif] line after its opening line, whatever [#if] lines of other
    kinds stand in between: the block up to that line is dropped and the
    loop goes on as before the block. *)
Theorem first_filter_block_ends_at_first_endif
    (before : list text) (opening : text) (body : list text)
    (closing : text) (rest : list text) :
  V1.skip_depth (fst (V1.loop V1.init [] before)) = 0 ->
  re_match re_if_macos opening = true ->
  Forall (fun l => re_match re_if_macos l = false /\ re_match re_if_ios l = false
                   /\ re_match re_endif_eol l = false) body ->
  re_match re_endif_eol closing = true ->
  V1.loop V1.init [] (before ++ opening :: body ++ closing :: rest)
  = V1.loop V1.init [] (before ++ rest).
Proof.
  intros Hs Ho Hb Hc.
  destruct (fst (V1.loop V1.init [] before)) as [k ios d] eqn:Hst.
  simpl in Hs. subst k.
  rewrite !(loop1_app _ before), Hst.
  rewrite loop1_cons, (step1_opening _ _ Ho). cbn [fst snd V1.skip_depth V1.in_ios_block V1.ios_depth].
  assert (Hskip : V1.loop (V1.mkState (0 + 1) ios d) [] body
                  = (V1.mkState (0 + 1) ios d, []))
    by (apply loop1_skipping; [simpl; lia | exact Hb]).
  rewrite loop1_app, Hskip. cbn [fst snd].
  rewrite loop1_cons, (step1_closing _ closing) by (first [exact Hc | simpl; lia]).
  reflexivity.
Qed.

Lemma first_filter_block_ends_at_first_endif_witness :
  V1.loop V1.init []
    ([] ++ str "#if os(macOS)" :: map str ["#if DEBUG"; "X"]%string
        ++ str "#endif" :: map str ["Y"; "#endif"; "B"]%string)
  = V1.loop V1.init [] ([] ++ map str ["Y"; "#endif"; "B"]%string).
Proof.
  apply first_filter_block_ends_at_first_endif; [reflexivity | reflexivity | | reflexivity].
  vm_compute. repeat constructor.
Defined.

Section FirstRewriting.

Implicit Types (s l : text) (kept : list text).

(** Lines kept from a content, none of them of a kind [P] of which the
    content has a line, do not join to the content again ([P] is no kind
    of the empty line). *)
Lemma kept_lines_differ (P : text -> bool) kept content l :
  P [] = false ->
  kept `sublist_of` split_lines content ->
  Forall (fun k => P k = false) kept ->
  l ∈ split_lines content -> P l = true ->
  join_lines kept <> content.
Proof.
  intros Hnil Hsub Hkept Hin Hl Heq.
  assert (Hnl : Forall no_nl kept).
  { pose proof (split_lines_no_nl content) as Hall.
    rewrite Forall_forall in *. intros k Hk. apply Hall.
    eapply sublist_subseteq; [exact Hsub | exact Hk]. }
  destruct kept as [|k ks].
  - cbn in Heq. subst content. apply list_elem_of_singleton in Hin as ->.
    congruence.
  - rewrite <- Heq, split_join in Hin by (first [discriminate | exact Hnl]).
    rewrite Forall_forall in Hkept. rewrite (Hkept l Hin) in Hl. discriminate Hl.
Qed.

Lemma first_filter_sublist content :
  V1.remove_macos_conditionals content `sublist_of` content.
Proof.
  unfold V1.remove_macos_conditionals, V1.filter_lines.
  rewrite <- (join_split content) at 2.
  apply join_lines_sublist, emitted1_sublist.
Qed.

End FirstRewriting.

(** X16: whenever [process_file] of the first script writes a file back,
    the content had both markers ['#if'] and ['macOS'], and the new content
    is the old one with characters left out, strictly shorter. *)
Theorem first_process_file_shrinks (content nc : text) :
  V1.process_file content = Some nc ->
  V2.contains (str "#if") content = true
  /\ V2.contains (str "macOS") content = true
  /\ nc `sublist_of` content
  /\ (length nc < length content)%nat.
Proof.
  unfold V1.process_file.
  destruct (V2.contains (str "#if") content); [|discriminate].
  destruct (V2.contains (str "macOS") content); [|discriminate].
  cbn [negb orb].
  destruct (decide (V1.remove_macos_conditionals content = content)) as [|Hne];
    [discriminate|].
  intros [= <-]. split; [reflexivity|]. split; [reflexivity|].
  pose proof (first_filter_sublist content) as Hsub. split; [exact Hsub|].
  destruct (Nat.lt_ge_cases (length (V1.remove_macos_conditionals content))
              (length content)) as [Hlt|Hge]; [exact Hlt|].
  destruct Hne. apply sublist_same_length; assumption.
Qed.

Lemma first_process_file_shrinks_witness :
  (length (str "B") < length (lines_of ["#if os(macOS)"; "A"; "#endif"; "B"]%string))%nat.
Proof.
  apply (first_process_file_shrinks (lines_of ["#if os(macOS)"; "A"; "#endif"; "B"]%string)).
  vm_compute. reflexivity.
Defined.

(** X17: on the content of a file with a line that opens a
    target-platform block or a not-target block, no test of [process_file]
    of the first script ends the work: both markers ['#if'] and ['macOS']
    are in the content, and the new content differs from the content read,
    so the script goes on to write the file. *)
Theorem first_script_guarded_file_passes_tests (content line : text) :
  line ∈ split_lines content ->
  re_match re_if_macos line || re_match re_if_not_macos line = true ->
  V2.contains (str "#if") content = true
  /\ V2.contains (str "macOS") content = true
  /\ V1.remove_macos_conditionals content <> content.
Proof.
  intros Hin Hm.
  assert (Hshape : exists a b, line = a ++ str "#if" ++ b
                               /\ exists a' b', line = a' ++ str "macOS" ++ b').
  { apply orb_true_iff in Hm as [Hm|Hm].
    - apply re_if_macos_shape in Hm as (w1 & w2 & r & -> & _).
      exists w1, (w2 ++ str "os(macOS)" ++ r). split; [reflexivity|].
      exists (w1 ++ str "#if" ++ w2 ++ str "os("), (str ")" ++ r).
      rewrite <- !app_assoc. reflexivity.
    - apply (re_match_guard_shape (str "if") 33%N (str "os(macOS)")) in Hm
        as (w1 & w2 & r & -> & _); [|reflexivity].
      exists w1, (w2 ++ str "!os(macOS)" ++ r). split; [reflexivity|].
      exists (w1 ++ str "#if" ++ w2 ++ str "!os("), (str ")" ++ r).
      rewrite <- !app_assoc. reflexivity. }
  destruct Hshape as (a & b & Hif & a' & b' & Hmac).
  split; [|split].
  - apply (contains_line _ line content Hin), contains_true. eauto.
  - apply (contains_line _ line content Hin), contains_true. eauto.
  - apply (kept_lines_differ opens_known_block _ content line).
    + reflexivity.
    + apply emitted1_sublist.
    + apply emitted1_no_opening.
    + exact Hin.
    + unfold opens_known_block. apply orb_true_iff in Hm as [->| ->];
        [reflexivity | apply orb_true_r].
Qed.

Lemma first_script_guarded_file_passes_tests_witness :
  V2.contains (str "#if") (lines_of ["#if !os(macOS)"; "A"; "#endif"]%string) = true
  /\ V2.contains (str "macOS") (lines_of ["#if !os(macOS)"; "A"; "#endif"]%string) = true
  /\ V1.remove_macos_conditionals (lines_of ["#if !os(macOS)"; "A"; "#endif"]%string)
     <> lines_of ["#if !os(macOS)"; "A"; "#endif"]%string.
Proof.
  apply (first_script_guarded_file_passes_tests _ (str "#if !os(macOS)")); [|reflexivity].
  vm_compute. apply list_elem_of_here.
Defined.
